(** * mml2musicxml: the MML compiler and its pitch model

    A shallow embedding of [src/mml2musicxml.py]: the [Pitch] class, the
    element tree the compiler writes into, and the tree-walking [Compiler]
    with its macro table, loops and tie inference. *)

From Stdlib Require Import ZArith Lia Ascii String DecimalString.
From stdpp Require Import gmap list fin_maps strings.

Local Open Scope string_scope.
Local Open Scope list_scope.
Local Open Scope Z_scope.

(** ** Python values and exceptions *)

(** The exceptions the compiler can raise.  [TypeError] and [IndexError]
    are the interpreter's own; the others are the classes declared at the
    end of the source file. *)
Inductive exn : Type :=
  | InternalError (message : string)
  | UndefinedMacroError (name : string)
  | DuplicateMacroError (name : string)
  | TypeError
  | IndexError.

(** A computation that returns a value or raises. *)
Inductive result (A : Type) : Type :=
  | Return (a : A)
  | Throw (e : exn).
Arguments Return {A} a.
Arguments Throw {A} e.

#[global] Instance result_ret : MRet result := @Return.
#[global] Instance result_bind : MBind result := fun A B k m =>
  match m with
  | Return a => k a
  | Throw e => Throw e
  end.

(** [str.upper()] on the ASCII alphabet of the grammar's tokens. *)
Definition upper_ascii (c : ascii) : ascii :=
  let n := nat_of_ascii c in
  if ((97 <=? n) && (n <=? 122))%nat then ascii_of_nat (n - 32) else c.

Fixpoint upper (s : string) : string :=
  match s with
  | EmptyString => EmptyString
  | String c s' => String (upper_ascii c) (upper s')
  end.

(** [ord(s)]: defined on strings of length one only. *)
Definition ord (s : string) : result Z :=
  match s with
  | String c EmptyString => Return (Z.of_nat (nat_of_ascii c))
  | _ => Throw TypeError
  end.

(** [l[i]]: a negative index counts from the end; out of range raises. *)
Definition getitem {A : Type} (l : list A) (i : Z) : result A :=
  let i' := if i <? 0 then i + Z.of_nat (length l) else i in
  if i' <? 0 then Throw IndexError
  else match l !! Z.to_nat i' with
       | Some x => Return x
       | None => Throw IndexError
       end.

(** [str(n)] for an integer. *)
Definition str (n : Z) : string := NilZero.string_of_int (Z.to_int n).

(** [s.endswith(t)]. *)
Fixpoint endswith (s t : string) : bool :=
  if String.eqb s t then true
  else match s with
       | EmptyString => false
       | String _ s' => endswith s' t
       end.

(** ** The Pitch class *)

Module Pitch.

Record t : Type := mk { _step : string; _alter : Z; _octave : Z }.

(** The fields of an instance before any setter has run. *)
Definition blank : t := mk EmptyString 0 0.

Definition set_step (step : string) (self : t) : result t :=
  let step := upper step in
  if bool_decide (step ∈ ["C"; "D"; "E"; "F"; "G"; "A"; "B"])
  then Return (mk step (_alter self) (_octave self))
  else Throw (InternalError "Illegal step string").

Definition set_alter (alter : Z) (self : t) : t :=
  let a := alter mod 12 in
  let a := if alter <? 0 then a - 12 else a in
  mk (_step self) a (_octave self).

Definition set_octave (octave : Z) (self : t) : t :=
  mk (_step self) (_alter self) (Z.min (Z.max octave (-1)) 9).

(** The [value] property: getter. *)
Definition value (self : t) : result Z :=
  let value := 0 in
  o ← ord (_step self);
  base ← getitem [9; 11; 0; 2; 4; 5; 7] (o - 0x41);
  let value := value + base in
  let value := value + _alter self in
  let value := value + (_octave self + 1) * 12 in
  let value := Z.min (Z.max value 0) 127 in
  Return value.

(** The [value] property: setter. *)
Definition set_value (value : Z) (self : t) : result t :=
  step ← getitem ["C"; "C"; "D"; "D"; "E"; "F";
                  "F"; "G"; "G"; "A"; "A"; "B"] (value mod 12);
  self ← set_step step self;
  alter ← getitem [0; 1; 0; 1; 0; 0;
                   1; 0; 1; 0; 1; 0] (value mod 12);
  let self := set_alter alter self in
  Return (set_octave (value / 12 - 1) self).

(** [Pitch(value)]; the keyword form of the constructor is never used. *)
Definition init (value : Z) : result t := set_value value blank.

(** [pitch.value += key]. *)
Definition add_value (key : Z) (self : t) : result t :=
  v ← value self;
  set_value (v + key) self.

End Pitch.

(** ** Element trees

    The documents are [lxml.etree] elements.  An element is a mutable
    object that the compiler reaches through several references (the part
    of a score, the notations of the previous note), so elements live in a
    store and are named by their index in it. *)

Module ET.

Abbreviation ref := nat.

Record Element : Type := mkElement {
  tag : string;
  attrib : list (string * string);
  text : option string;
  children : list ref
}.

Abbreviation store := (list Element).

Definition append (child : ref) (e : Element) : Element :=
  mkElement (tag e) (attrib e) (text e) (children e ++ [child]).

Definition with_text (txt : string) (e : Element) : Element :=
  mkElement (tag e) (attrib e) (Some txt) (children e).

(** [ET.Element(tag)] *)
Definition new (tag : string) (s : store) : ref * store :=
  (length s, s ++ [mkElement tag [] None []]).

(** [ET.SubElement(parent, tag, **attrib)] *)
Definition SubElement (parent : ref) (tag : string)
    (attrib : list (string * string)) (s : store) : ref * store :=
  let child := length s in
  (child, alter (append child) parent s ++ [mkElement tag attrib None []]).

(** [element.text = txt] *)
Definition set_text (e : ref) (txt : string) (s : store) : store :=
  alter (with_text txt) e s.

(** [bool(element)]: an element is true when it has children. *)
Definition truth (e : ref) (s : store) : bool :=
  match s !! e with
  | Some el => match children el with [] => false | _ :: _ => true end
  | None => false
  end.

(** [element.find(tag)]: the first child with that tag. *)
Fixpoint first_tagged (name : string) (s : store) (cs : list ref) : option ref :=
  match cs with
  | [] => None
  | c :: cs =>
      match s !! c with
      | Some ce => if String.eqb (tag ce) name then Some c
                   else first_tagged name s cs
      | None => first_tagged name s cs
      end
  end.

Definition find (e : ref) (name : string) (s : store) : option ref :=
  el ← s !! e; first_tagged name s (children el).

(** [element.findtext(tag)] *)
Definition findtext (e : ref) (name : string) (s : store) : option string :=
  c ← find e name s; el ← s !! c; text el.

End ET.

(** ** The parse tree

    The trees the grammar produces, by rule name ([tree.data] in the
    source), with tokens already read as strings or integers. *)

(** The children of a [note_command]. *)
Inductive NoteChild : Type :=
  | Rest
  | Text (s : string)
  | Step (s : string)
  | Accidental (s : string)
  | PitchNumber (n : Z)
  | Length (n : Z)
  | Dot
  | Breath.

#[warnings="-register-all"] Inductive Tree : Type :=
  | Root (children : list Tree)
  | Content (children : list Tree)
  | ChannelCommand (channel : Z)
  | CallCommand (name : string)
  | DefineCommand (name : string) (content : Tree)
  | NoteCommand (children : list NoteChild)
  | KeyCommand (key : Z)
  | LengthCommand (length : Z)
  | LoopCommand (content : Tree) (count : nat)
  | OctaveCommand (octave : Z)
  | OctaveUpCommand
  | OctaveDownCommand
  | OctaveReverseCommand
  | TempoCommand (tempo : Z)
  | UnsupportedCommand.

(** ** The Compiler class *)

Module Compiler.

Definition channels : nat := 16.

Record t : Type := mk {
  __scores : list (option ET.ref);
  __parts : list (option ET.ref);
  __channel : Z;
  __local : bool;
  __key : Z;
  __length : Z;
  __octave : Z;
  __tempo : Z;
  __initial_key : Z;
  __initial_length : Z;
  __initial_octave : Z;
  __initial_tempo : Z;
  __macros : gmap string Tree;
  __octave_reverse : bool;
  __previous_notations : option ET.ref;
  __previous_pitch : option Pitch.t;
  __previous_text : option string;
  __global_key : option Z;
  __global_tempo : option Z;
  __elements : ET.store
}.

(** Attribute assignment [self.__f = v], one function per attribute. *)
Definition set_scores (v : list (option ET.ref)) (self : t) : t :=
  mk v (__parts self) (__channel self) (__local self) (__key self)
     (__length self) (__octave self) (__tempo self) (__initial_key self)
     (__initial_length self) (__initial_octave self)
     (__initial_tempo self) (__macros self) (__octave_reverse self)
     (__previous_notations self) (__previous_pitch self)
     (__previous_text self) (__global_key self) (__global_tempo self)
     (__elements self).

Definition set_parts (v : list (option ET.ref)) (self : t) : t :=
  mk (__scores self) v (__channel self) (__local self) (__key self)
     (__length self) (__octave self) (__tempo self) (__initial_key self)
     (__initial_length self) (__initial_octave self)
     (__initial_tempo self) (__macros self) (__octave_reverse self)
     (__previous_notations self) (__previous_pitch self)
     (__previous_text self) (__global_key self) (__global_tempo self)
     (__elements self).

Definition set_channel (v : Z) (self : t) : t :=
  mk (__scores self) (__parts self) v (__local self) (__key self)
     (__length self) (__octave self) (__tempo self) (__initial_key self)
     (__initial_length self) (__initial_octave self)
     (__initial_tempo self) (__macros self) (__octave_reverse self)
     (__previous_notations self) (__previous_pitch self)
     (__previous_text self) (__global_key self) (__global_tempo self)
     (__elements self).

Definition set_local (v : bool) (self : t) : t :=
  mk (__scores self) (__parts self) (__channel self) v (__key self)
     (__length self) (__octave self) (__tempo self) (__initial_key self)
     (__initial_length self) (__initial_octave self)
     (__initial_tempo self) (__macros self) (__octave_reverse self)
     (__previous_notations self) (__previous_pitch self)
     (__previous_text self) (__global_key self) (__global_tempo self)
     (__elements self).

Definition set_key (v : Z) (self : t) : t :=
  mk (__scores self) (__parts self) (__channel self) (__local self) v
     (__length self) (__octave self) (__tempo self) (__initial_key self)
     (__initial_length self) (__initial_octave self)
     (__initial_tempo self) (__macros self) (__octave_reverse self)
     (__previous_notations self) (__previous_pitch self)
     (__previous_text self) (__global_key self) (__global_tempo self)
     (__elements self).

Definition set_length (v : Z) (self : t) : t :=
  mk (__scores self) (__parts self) (__channel self) (__local self)
     (__key self) v (__octave self) (__tempo self) (__initial_key self)
     (__initial_length self) (__initial_octave self)
     (__initial_tempo self) (__macros self) (__octave_reverse self)
     (__previous_notations self) (__previous_pitch self)
     (__previous_text self) (__global_key self) (__global_tempo self)
     (__elements self).

Definition set_octave (v : Z) (self : t) : t :=
  mk (__scores self) (__parts self) (__channel self) (__local self)
     (__key self) (__length self) v (__tempo self) (__initial_key self)
     (__initial_length self) (__initial_octave self)
     (__initial_tempo self) (__macros self) (__octave_reverse self)
     (__previous_notations self) (__previous_pitch self)
     (__previous_text self) (__global_key self) (__global_tempo self)
     (__elements self).

Definition set_tempo (v : Z) (self : t) : t :=
  mk (__scores self) (__parts self) (__channel self) (__local self)
     (__key self) (__length self) (__octave self) v (__initial_key self)
     (__initial_length self) (__initial_octave self)
     (__initial_tempo self) (__macros self) (__octave_reverse self)
     (__previous_notations self) (__previous_pitch self)
     (__previous_text self) (__global_key self) (__global_tempo self)
     (__elements self).

Definition set_macros (v : gmap string Tree) (self : t) : t :=
  mk (__scores self) (__parts self) (__channel self) (__local self)
     (__key self) (__length self) (__octave self) (__tempo self)
     (__initial_key self) (__initial_length self) (__initial_octave self)
     (__initial_tempo self) v (__octave_reverse self)
     (__previous_notations self) (__previous_pitch self)
     (__previous_text self) (__global_key self) (__global_tempo self)
     (__elements self).

Definition set_octave_reverse (v : bool) (self : t) : t :=
  mk (__scores self) (__parts self) (__channel self) (__local self)
     (__key self) (__length self) (__octave self) (__tempo self)
     (__initial_key self) (__initial_length self) (__initial_octave self)
     (__initial_tempo self) (__macros self) v (__previous_notations self)
     (__previous_pitch self) (__previous_text self) (__global_key self)
     (__global_tempo self) (__elements self).

Definition set_previous_notations (v : option ET.ref) (self : t) : t :=
  mk (__scores self) (__parts self) (__channel self) (__local self)
     (__key self) (__length self) (__octave self) (__tempo self)
     (__initial_key self) (__initial_length self) (__initial_octave self)
     (__initial_tempo self) (__macros self) (__octave_reverse self) v
     (__previous_pitch self) (__previous_text self) (__global_key self)
     (__global_tempo self) (__elements self).

Definition set_previous_pitch (v : option Pitch.t) (self : t) : t :=
  mk (__scores self) (__parts self) (__channel self) (__local self)
     (__key self) (__length self) (__octave self) (__tempo self)
     (__initial_key self) (__initial_length self) (__initial_octave self)
     (__initial_tempo self) (__macros self) (__octave_reverse self)
     (__previous_notations self) v (__previous_text self)
     (__global_key self) (__global_tempo self) (__elements self).

Definition set_previous_text (v : option string) (self : t) : t :=
  mk (__scores self) (__parts self) (__channel self) (__local self)
     (__key self) (__length self) (__octave self) (__tempo self)
     (__initial_key self) (__initial_length self) (__initial_octave self)
     (__initial_tempo self) (__macros self) (__octave_reverse self)
     (__previous_notations self) (__previous_pitch self) v
     (__global_key self) (__global_tempo self) (__elements self).

Definition set_global_key (v : option Z) (self : t) : t :=
  mk (__scores self) (__parts self) (__channel self) (__local self)
     (__key self) (__length self) (__octave self) (__tempo self)
     (__initial_key self) (__initial_length self) (__initial_octave self)
     (__initial_tempo self) (__macros self) (__octave_reverse self)
     (__previous_notations self) (__previous_pitch self)
     (__previous_text self) v (__global_tempo self) (__elements self).

Definition set_global_tempo (v : option Z) (self : t) : t :=
  mk (__scores self) (__parts self) (__channel self) (__local self)
     (__key self) (__length self) (__octave self) (__tempo self)
     (__initial_key self) (__initial_length self) (__initial_octave self)
     (__initial_tempo self) (__macros self) (__octave_reverse self)
     (__previous_notations self) (__previous_pitch self)
     (__previous_text self) (__global_key self) v (__elements self).

Definition set_elements (v : ET.store) (self : t) : t :=
  mk (__scores self) (__parts self) (__channel self) (__local self)
     (__key self) (__length self) (__octave self) (__tempo self)
     (__initial_key self) (__initial_length self) (__initial_octave self)
     (__initial_tempo self) (__macros self) (__octave_reverse self)
     (__previous_notations self) (__previous_pitch self)
     (__previous_text self) (__global_key self) (__global_tempo self) v.

(** How a call of a method ends: it returns, it raises (the attributes
    keep the values they had when the exception left the method), or
    the interpreter runs out of fuel, which stands for the unbounded
    recursion of a macro that calls itself. *)
Inductive outcome : Type :=
  | Done (self : t)
  | Raised (e : exn) (self : t)
  | OutOfFuel.

(** [l[i] = x] *)
Definition setitem {A : Type} (l : list A) (i : Z) (x : A) : result (list A) :=
  let i' := if i <? 0 then i + Z.of_nat (length l) else i in
  if (i' <? 0) || (Z.of_nat (length l) <=? i') then Throw IndexError
  else Return (<[Z.to_nat i' := x]> l).

(** The attributes after the assignments of [__init__] and before its
    call of [__init_channel]; the four attributes that are only
    declared there hold 0 until then. *)
Definition blank : t :=
  mk (replicate channels None) (replicate channels None) 0 false
     0 0 0 0 0 4 4 120 ∅ false None None None None None [].

Definition init_channel (channel : Z) (local : bool) (self : t) : outcome :=
  let self := set_channel channel self in
  let self := set_local local self in
  let '(score, s) := ET.new "score-partwise" (__elements self) in
  let '(part, s) := ET.SubElement score "part" [] s in
  let self := set_elements s self in
  match setitem (__scores self) (__channel self) (Some score) with
  | Throw e => Raised e self
  | Return scores =>
    let self := set_scores scores self in
    match setitem (__parts self) (__channel self) (Some part) with
    | Throw e => Raised e self
    | Return parts =>
      let self := set_parts parts self in
      let self := set_key (__initial_key self) self in
      let self := set_length (__initial_length self) self in
      let self := set_octave (__initial_octave self) self in
      let self := set_tempo (__initial_tempo self) self in
      Done self
    end
  end.

(** Binding the arguments of a call of [__init_channel]: [channel] is
    positional and has no default, [local] defaults to [True]. *)
Definition call_init_channel (args : list Z) (local : option bool)
    (self : t) : outcome :=
  match args with
  | [channel] => init_channel channel (default true local) self
  | _ => Raised TypeError self
  end.

(** [Compiler()] *)
Definition new : outcome := call_init_channel [0] (Some false) blank.

Section visitor.

(** [self.visit], as the methods that recurse see it. *)
Variable visit : Tree -> t -> outcome.

(** [__default__]: visit the children in order. *)
Fixpoint default (children : list Tree) (self : t) : outcome :=
  match children with
  | [] => Done self
  | subtree :: rest =>
      match visit subtree self with
      | Done self => default rest self
      | r => r
      end
  end.

Definition call_command (name : string) (self : t) : outcome :=
  let normalized_name := upper name in
  match __macros self !! normalized_name with
  | None => Raised (UndefinedMacroError name) self
  | Some content =>
      let previous_length := __length self in
      let previous_octave := __octave self in
      match visit content self with
      | Done self =>
          let self := set_length previous_length self in
          let self := set_octave previous_octave self in
          Done self
      | r => r
      end
  end.

(** [for _ in range(count): ...] *)
Fixpoint loop (content : Tree) (count : nat) (self : t) : outcome :=
  match count with
  | O => Done self
  | S count =>
      let previous_octave := __octave self in
      match visit content self with
      | Done self =>
          let self := set_octave previous_octave self in
          loop content count self
      | r => r
      end
  end.

Definition loop_command (content : Tree) (count : nat) (self : t) : outcome :=
  loop content count self.

End visitor.

Definition channel_command (channel : Z) (self : t) : outcome :=
  let self := set_channel channel self in
  let self := set_local true self in
  call_init_channel [] None self.

Definition define_command (name : string) (content : Tree) (self : t) : outcome :=
  let normalized_name := upper name in
  match __macros self !! normalized_name with
  | Some _ => Raised (DuplicateMacroError name) self
  | None => Done (set_macros (<[normalized_name := content]> (__macros self)) self)
  end.

Definition key_command (key : Z) (self : t) : outcome :=
  let self := set_key key self in
  if negb (__local self)
  then Done (set_global_key (Some (__key self)) self)
  else Done self.

Definition length_command (length : Z) (self : t) : outcome :=
  Done (set_length length self).

Definition octave_command (octave : Z) (self : t) : outcome :=
  Done (set_octave octave self).

Definition octave_up_command (self : t) : outcome :=
  if __octave_reverse self
  then Done (set_octave (__octave self - 1) self)
  else Done (set_octave (__octave self + 1) self).

Definition octave_down_command (self : t) : outcome :=
  if __octave_reverse self
  then Done (set_octave (__octave self + 1) self)
  else Done (set_octave (__octave self - 1) self).

Definition octave_reverse_command (self : t) : outcome :=
  Done (set_octave_reverse true self).

Definition tempo_command (tempo : Z) (self : t) : outcome :=
  let self := set_tempo tempo self in
  if negb (__local self)
  then Done (set_global_tempo (Some (__tempo self)) self)
  else Done self.

Definition unsupported_command (self : t) : outcome := Done self.

(** *** note_command *)

(** The local variables of [note_command] that the loop over the
    children assigns. *)
Record locals : Type := mkLocals {
  rest_ : bool;
  text_ : string;
  step_ : string;
  alter_ : Z;
  pitch_ : Pitch.t;
  length_ : Z;
  dot_ : Z;
  breath_ : bool
}.

(** One turn of [for subtree in tree.children: match subtree.data]. *)
Definition scan_child (subtree : NoteChild) (l : locals) : result locals :=
  let '(mkLocals rest text step alter pitch length dot breath) := l in
  match subtree with
  | Rest => Return (mkLocals true text step alter pitch length dot breath)
  | Text s => Return (mkLocals rest s step alter pitch length dot breath)
  | Step s => Return (mkLocals rest text s alter pitch length dot breath)
  | Accidental s =>
      if String.eqb s "-"
      then Return (mkLocals rest text step (-1) pitch length dot breath)
      else Return (mkLocals rest text step 1 pitch length dot breath)
  | PitchNumber n =>
      pitch ← Pitch.set_value n pitch;
      Return (mkLocals rest text step alter pitch length dot breath)
  | Length n => Return (mkLocals rest text step alter pitch n dot breath)
  | Dot => Return (mkLocals rest text step alter pitch length (dot + 1) breath)
  | Breath => Return (mkLocals rest text step alter pitch length dot true)
  end.

Fixpoint scan (children : list NoteChild) (l : locals) : result locals :=
  match children with
  | [] => Return l
  | subtree :: children => l ← scan_child subtree l; scan children l
  end.

(** Truth of a string: it is not empty. *)
Definition nonempty (s : string) : bool :=
  match s with EmptyString => false | String _ _ => true end.

(** Lines 298-303: the pitch of a note that is not a rest. *)
Definition resolve (l : locals) (self : t) : result Pitch.t :=
  pitch ← (if nonempty (step_ l)
           then pitch ← Pitch.set_step (step_ l) (pitch_ l);
                let pitch := Pitch.set_alter (alter_ l) pitch in
                Return (Pitch.set_octave (__octave self) pitch)
           else Return (pitch_ l));
  Pitch.add_value (__key self) pitch.

(** Lines 309-313: the four nested tests that set [tie]. *)
Definition tie_test (text : string) (self : t) : bool :=
  match __previous_notations self with
  | Some previous_notations =>
      if ET.truth previous_notations (__elements self) then
        match __previous_pitch self with
        | Some _ =>
            match __previous_text self with
            | Some previous_text =>
                if nonempty previous_text
                then endswith previous_text text
                else false
            | None => false
            end
        | None => false
        end
      else false
  | None => false
  end.

Section okaka.

(** [okaka.convert], the lyric conversion of the pyokaka package. *)
Variable convert : string -> string.

(** Lines 321-342: the measure, its attributes, the note element and
    its duration.  Returns the note element. *)
Definition emit_measure (part : ET.ref) (beat beat_type tempo : Z)
    (s : ET.store) : ET.ref * ET.store :=
  let '(measure, s) := ET.SubElement part "measure" [] s in
  let '(attributes, s) := ET.SubElement measure "attributes" [] s in
  let '(divisions, s) := ET.SubElement attributes "divisions" [] s in
  let s := ET.set_text divisions "1" s in
  let '(key, s) := ET.SubElement attributes "key" [] s in
  let '(fifths, s) := ET.SubElement key "fifths" [] s in
  let s := ET.set_text fifths "0" s in
  let '(time, s) := ET.SubElement attributes "time" [] s in
  let '(beats, s) := ET.SubElement time "beats" [] s in
  let s := ET.set_text beats (str beat) s in
  let '(beat_type_, s) := ET.SubElement time "beat-type" [] s in
  let s := ET.set_text beat_type_ (str beat_type) s in
  let '(clef, s) := ET.SubElement attributes "clef" [] s in
  let '(sign, s) := ET.SubElement clef "sign" [] s in
  let s := ET.set_text sign "G" s in
  let '(line, s) := ET.SubElement clef "line" [] s in
  let s := ET.set_text line "2" s in
  let '(_, s) := ET.SubElement attributes "sound" [("tempo", str tempo)] s in
  let '(note, s) := ET.SubElement measure "note" [] s in
  let '(duration, s) := ET.SubElement note "duration" [] s in
  let s := ET.set_text duration (str beat) s in
  (note, s).

(** Lines 345-366: the children of the note element of a note that is
    not a rest. *)
Definition emit_pitched (note : ET.ref) (pitch : Pitch.t) (text : string)
    (breath tie : bool) (s : ET.store) (self : t) : outcome :=
  let '(pitch_el, s) := ET.SubElement note "pitch" [] s in
  let '(step, s) := ET.SubElement pitch_el "step" [] s in
  let s := ET.set_text step (Pitch._step pitch) s in
  let '(alter, s) := ET.SubElement pitch_el "alter" [] s in
  let s := ET.set_text alter (str (Pitch._alter pitch)) s in
  let '(octave, s) := ET.SubElement pitch_el "octave" [] s in
  let s := ET.set_text octave (str (Pitch._octave pitch)) s in
  let '(notations, s) := ET.SubElement note "notations" [] s in
  let '(articulations, s) := ET.SubElement notations "articulations" [] s in
  let s :=
    if nonempty text then
      let '(lyric, s) := ET.SubElement note "lyric" [] s in
      let '(lyric_text, s) := ET.SubElement lyric "text" [] s in
      ET.set_text lyric_text (convert text) s
    else s in
  let s :=
    if breath
    then (ET.SubElement articulations "breath-mark" [] s).2
    else s in
  if tie then
    match __previous_notations self with
    | Some previous_notations =>
        let '(_, s) :=
          ET.SubElement previous_notations "tie" [("type", "start")] s in
        let '(_, s) := ET.SubElement notations "tie" [("type", "stop")] s in
        Done (set_previous_notations (Some notations) (set_elements s self))
    | None => Raised TypeError (set_elements s self)
    end
  else Done (set_previous_notations (Some notations) (set_elements s self)).

Definition note_command (children : list NoteChild) (self : t) : outcome :=
  match (pitch ← Pitch.init 0;
         scan children
           (mkLocals false EmptyString EmptyString 0 pitch (__length self) 0
            false)) with
  | Throw e => Raised e self
  | Return l =>
    let rest := rest_ l in
    let text := text_ l in
    match (if negb rest then resolve l self else Return (pitch_ l)) with
    | Throw e => Raised e self
    | Return pitch =>
      let tie := if negb rest then tie_test text self else false in
      let self :=
        if negb rest
        then set_previous_text (Some text)
               (set_previous_pitch (Some pitch) self)
        else self in
      let beat := 2 * 2 ^ dot_ l - 1 in
      let beat_type := length_ l * 2 ^ dot_ l in
      match getitem (__parts self) (__channel self) with
      | Throw e => Raised e self
      | Return None => Raised TypeError self
      | Return (Some part) =>
        let '(note, s) :=
          emit_measure part beat beat_type (__tempo self) (__elements self) in
        if negb rest then
          emit_pitched note pitch text (breath_ l) tie s self
        else
          let '(_, s) := ET.SubElement note "rest" [] s in
          let self := set_elements s self in
          let self := set_previous_notations None self in
          let self := set_previous_pitch (Some pitch) self in
          let self := set_previous_text None self in
          Done self
      end
    end
  end.

(** *** The interpreter

    [visit] calls the method named after the rule of the tree and
    falls back on [__default__] for [root] and [content]. *)
Fixpoint visit (fuel : nat) (tree : Tree) (self : t) : outcome :=
  match fuel with
  | O => OutOfFuel
  | S fuel =>
      match tree with
      | Root children => default (visit fuel) children self
      | Content children => default (visit fuel) children self
      | ChannelCommand channel => channel_command channel self
      | CallCommand name => call_command (visit fuel) name self
      | DefineCommand name content => define_command name content self
      | NoteCommand children => note_command children self
      | KeyCommand key => key_command key self
      | LengthCommand length => length_command length self
      | LoopCommand content count =>
          loop_command (visit fuel) content count self
      | OctaveCommand octave => octave_command octave self
      | OctaveUpCommand => octave_up_command self
      | OctaveDownCommand => octave_down_command self
      | OctaveReverseCommand => octave_reverse_command self
      | TempoCommand tempo => tempo_command tempo self
      | UnsupportedCommand => unsupported_command self
      end
  end.

(** [Compiler().compile(tree)]: [__scores] of the state it returns holds
    the scores. *)
Definition compile (fuel : nat) (tree : Tree) : outcome :=
  match new with
  | Done self => visit fuel tree self
  | r => r
  end.

End okaka.

End Compiler.

(** ** Vocabulary of the statements *)

(** The attributes a call leaves behind, however it ended. *)
Definition state_of (o : Compiler.outcome) : Compiler.t :=
  match o with
  | Compiler.Done self => self
  | Compiler.Raised _ self => self
  | Compiler.OutOfFuel => Compiler.blank
  end.

(** A freshly constructed compiler. *)
Definition start : Compiler.t := state_of Compiler.new.

(** A lyric conversion to run examples with. *)
Definition romaji (text : string) : string := text.

(** The loop as the specification words it: [unrolled run n self self']
    holds when [n] successive interpretations of the body, each followed
    by restoring the octave captured before it, lead from [self] to
    [self']. *)
Inductive unrolled (run : Compiler.t -> Compiler.outcome) :
    nat -> Compiler.t -> Compiler.t -> Prop :=
  | unrolled_O self : unrolled run O self self
  | unrolled_S n self body_end self' :
      run self = Compiler.Done body_end ->
      unrolled run n
        (Compiler.set_octave (Compiler.__octave self) body_end) self' ->
      unrolled run (S n) self self'.

(** *** Reading a document *)

(** The last child of an element. *)
Definition last_child (e : ET.ref) (s : ET.store) : option ET.ref :=
  el ← s !! e; last (ET.children el).

(** The texts of [attributes/time/beats] and [attributes/time/beat-type]
    of a measure. *)
Definition time_signature (measure : ET.ref) (s : ET.store) :
    option (string * string) :=
  attributes ← ET.find measure "attributes" s;
  time ← ET.find attributes "time" s;
  beats ← ET.findtext time "beats" s;
  beat_type ← ET.findtext time "beat-type" s;
  Some (beats, beat_type).

(** A [tie] element of the given type, as [ET.SubElement] creates it. *)
Definition tie_element (type : string) : ET.Element :=
  ET.mkElement "tie" [("type", type)] None [].

Definition is_tie (type : string) (el : ET.Element) : bool :=
  String.eqb (ET.tag el) "tie" &&
  match ET.attrib el with
  | [(k, v)] => String.eqb k "type" && String.eqb v type
  | _ => false
  end.

(** Whether an element has a [tie] child of the given type. *)
Definition has_tie (e : ET.ref) (type : string) (s : ET.store) : bool :=
  match s !! e with
  | Some el =>
      existsb (fun c => match s !! c with
                        | Some ce => is_tie type ce
                        | None => false
                        end) (ET.children el)
  | None => false
  end.

(** Whether any element of the store is a [tie]. *)
Definition any_tie (s : ET.store) : bool :=
  existsb (fun el => String.eqb (ET.tag el) "tie") s.

Definition tagged (e : ET.ref) (name : string) (s : ET.store) : Prop :=
  exists el, s !! e = Some el /\ ET.tag el = name.

(** Every element of [s] is still in [s'], under the same tag. *)
Definition keeps_tags (s s' : ET.store) : Prop :=
  forall r el, s !! r = Some el ->
    exists el', s' !! r = Some el' /\ ET.tag el' = ET.tag el.

(** *** The fields of a note command, read off its children *)

Definition is_rest (children : list NoteChild) : bool :=
  existsb (fun c => match c with Rest => true | _ => false end) children.

(** The number of dot modifiers. *)
Fixpoint dots (children : list NoteChild) : Z :=
  match children with
  | [] => 0
  | Dot :: children => 1 + dots children
  | _ :: children => dots children
  end.

(** The explicit length if one is given, else [default]. *)
Fixpoint effective_length (children : list NoteChild) (default : Z) : Z :=
  match children with
  | [] => default
  | Length n :: children => effective_length children n
  | _ :: children => effective_length children default
  end.

(** The lyric fragment if one is given, else [default]. *)
Fixpoint lyric (children : list NoteChild) (default : string) : string :=
  match children with
  | [] => default
  | Text s :: children => lyric children s
  | _ :: children => lyric children default
  end.

(** The step letters the grammar admits, in upper case. *)
Definition legal_step (step : string) : Prop :=
  step ∈ ["C"; "D"; "E"; "F"; "G"; "A"; "B"].

(** The step children of a note are letters of the grammar. *)
Definition steps_legal (children : list NoteChild) : Prop :=
  forall s, Step s ∈ children -> legal_step (upper s).

(** A pitch whose value can be read and whose octave is clamped. *)
Definition pitch_ok (p : Pitch.t) : Prop :=
  (exists o base, ord (Pitch._step p) = Return o /\
                  getitem [9; 11; 0; 2; 4; 5; 7] (o - 0x41) = Return base) /\
  -1 <= Pitch._octave p <= 9.

(** *** States of a compilation

    What every state a compilation passes through satisfies: the parts
    are [part] elements of the store, the active channel has one, and the
    notations of the previous note, when there is one, is a [notations]
    element of the store. *)
Record wf (self : Compiler.t) : Prop := {
  wf_parts : forall i part,
    Compiler.__parts self !! i = Some (Some part) ->
    tagged part "part" (Compiler.__elements self);
  wf_active : exists part,
    getitem (Compiler.__parts self) (Compiler.__channel self)
    = Return (Some part);
  wf_notations : forall q,
    Compiler.__previous_notations self = Some q ->
    tagged q "notations" (Compiler.__elements self)
}.

(** *** Sample programs *)

(** A macro body that changes the key, tempo, length and octave and emits
    a note. *)
Definition sample_body : Tree :=
  Content [KeyCommand 2; TempoCommand 90; LengthCommand 8; OctaveCommand 6;
           NoteCommand [Step "C"]].

Definition sample_defined : Compiler.t :=
  state_of (Compiler.visit romaji 1 (DefineCommand "m" sample_body) start).

(** The loop [[O5 C O6]2]. *)
Definition sample_loop : Tree :=
  LoopCommand
    (Content [OctaveCommand 5; NoteCommand [Step "C"]; OctaveCommand 6]) 2.

(** The time signature of the last measure of the active channel. *)
Definition last_time_signature (self : Compiler.t) : option (string * string) :=
  match getitem (Compiler.__parts self) (Compiler.__channel self) with
  | Return (Some part) =>
      measure ← last_child part (Compiler.__elements self);
      time_signature measure (Compiler.__elements self)
  | _ => None
  end.

(** *** Ties *)

(** What the previous note must have been for a note with lyric [text]
    to be tied to it: it had a non-empty notations element, a tracked
    pitch and a non-empty lyric, and [text] is a suffix of that lyric. *)
Definition tie_condition (self : Compiler.t) (text : string) : Prop :=
  exists q previous_text,
    Compiler.__previous_notations self = Some q /\
    ET.truth q (Compiler.__elements self) = true /\
    Compiler.__previous_pitch self <> None /\
    Compiler.__previous_text self = Some previous_text /\
    previous_text <> EmptyString /\
    exists prefix, previous_text = prefix +:+ text.

(** The same with the suffix test the other way round: the lyric of the
    previous note is a suffix of [text]. *)
Definition reversed_tie_condition (self : Compiler.t) (text : string) : Prop :=
  exists q previous_text,
    Compiler.__previous_notations self = Some q /\
    ET.truth q (Compiler.__elements self) = true /\
    Compiler.__previous_pitch self <> None /\
    Compiler.__previous_text self = Some previous_text /\
    previous_text <> EmptyString /\
    exists prefix, text = prefix +:+ previous_text.

(** The state after the note [*a,C], after [*a,C *ka,C] and after
    [*ka,C]. *)
Definition after_a : Compiler.t :=
  state_of (Compiler.visit romaji 1 (NoteCommand [Text "a"; Step "C"]) start).

Definition after_a_ka : Compiler.t :=
  state_of (Compiler.visit romaji 1 (NoteCommand [Text "ka"; Step "C"]) after_a).

Definition after_ka : Compiler.t :=
  state_of (Compiler.visit romaji 1 (NoteCommand [Text "ka"; Step "C"]) start).

Definition after_ka_a : Compiler.t :=
  state_of (Compiler.visit romaji 1 (NoteCommand [Text "a"; Step "C"]) after_ka).

(** ** Vocabulary of the further properties *)

(** *** Relations between the states before and after a command *)

(** Two states with the same attributes but for the store and the three
    tie-tracking attributes. *)
Definition same_settings (self self' : Compiler.t) : Prop :=
  Compiler.__scores self' = Compiler.__scores self /\
  Compiler.__parts self' = Compiler.__parts self /\
  Compiler.__channel self' = Compiler.__channel self /\
  Compiler.__local self' = Compiler.__local self /\
  Compiler.__key self' = Compiler.__key self /\
  Compiler.__length self' = Compiler.__length self /\
  Compiler.__octave self' = Compiler.__octave self /\
  Compiler.__tempo self' = Compiler.__tempo self /\
  Compiler.__macros self' = Compiler.__macros self /\
  Compiler.__octave_reverse self' = Compiler.__octave_reverse self /\
  Compiler.__global_key self' = Compiler.__global_key self /\
  Compiler.__global_tempo self' = Compiler.__global_tempo self.

(** [ends D E self r]: the outcome [r] of a call entered in state [self]
    is related to [self] by [D] when the call returned and by [E] when
    it raised. *)
Definition ends (D E : Compiler.t -> Compiler.t -> Prop)
    (self : Compiler.t) (r : Compiler.outcome) : Prop :=
  match r with
  | Compiler.Done self' => D self self'
  | Compiler.Raised _ self' => E self self'
  | Compiler.OutOfFuel => True
  end.

(** Every macro of [self] is a macro of [self'], with the same body. *)
Definition macros_grow (self self' : Compiler.t) : Prop :=
  forall name content,
    Compiler.__macros self !! name = Some content ->
    Compiler.__macros self' !! name = Some content.

(** The two states have the same scores and parts lists and the same
    active channel. *)
Definition same_channel (self self' : Compiler.t) : Prop :=
  Compiler.__scores self' = Compiler.__scores self /\
  Compiler.__parts self' = Compiler.__parts self /\
  Compiler.__channel self' = Compiler.__channel self /\
  Compiler.__local self' = Compiler.__local self.

(** *** Reading a note *)

(** Whether an element has a child with the given tag. *)
Definition has_child (e : ET.ref) (name : string) (s : ET.store) : bool :=
  match ET.find e name s with Some _ => true | None => false end.

(** The note element of a measure. *)
Definition measure_note (measure : ET.ref) (s : ET.store) : option ET.ref :=
  ET.find measure "note" s.

(** The texts of [pitch/step], [pitch/alter] and [pitch/octave] of a note. *)
Definition note_pitch (note : ET.ref) (s : ET.store) :
    option (string * string * string) :=
  pitch ← ET.find note "pitch" s;
  step ← ET.findtext pitch "step" s;
  alter ← ET.findtext pitch "alter" s;
  octave ← ET.findtext pitch "octave" s;
  Some (step, alter, octave).

(** The text of [lyric/text] of a note. *)
Definition note_lyric (note : ET.ref) (s : ET.store) : option string :=
  lyric ← ET.find note "lyric" s; ET.findtext lyric "text" s.

(** Whether [notations/articulations] of a note has a breath mark. *)
Definition note_breath (note : ET.ref) (s : ET.store) : bool :=
  match (notations ← ET.find note "notations" s;
         articulations ← ET.find notations "articulations" s;
         ET.find articulations "breath-mark" s) with
  | Some _ => true
  | None => false
  end.

(** The attributes of [attributes/sound] of a measure. *)
Definition measure_sound (measure : ET.ref) (s : ET.store) :
    option (list (string * string)) :=
  attributes ← ET.find measure "attributes" s;
  sound ← ET.find attributes "sound" s;
  el ← s !! sound;
  Some (ET.attrib el).

(** The texts of [divisions], [key/fifths], [clef/sign] and [clef/line]
    of the attributes of a measure. *)
Definition measure_constants (measure : ET.ref) (s : ET.store) :
    option (string * string * string * string) :=
  attributes ← ET.find measure "attributes" s;
  divisions ← ET.findtext attributes "divisions" s;
  key ← ET.find attributes "key" s;
  fifths ← ET.findtext key "fifths" s;
  clef ← ET.find attributes "clef" s;
  sign ← ET.findtext clef "sign" s;
  line ← ET.findtext clef "line" s;
  Some (divisions, fifths, sign, line).

(** Every element of [s] is in [s'] with the same tag, attributes and
    text, and with its children followed by further ones. *)
Definition extends (s s' : ET.store) : Prop :=
  forall r el, s !! r = Some el ->
    exists more,
      s' !! r = Some (ET.mkElement (ET.tag el) (ET.attrib el) (ET.text el)
                        (ET.children el ++ more)).

(** Whether a note command has a breath mark. *)
Definition has_breath (children : list NoteChild) : bool :=
  existsb (fun c => match c with Breath => true | _ => false end) children.

(** The last measure of the active channel. *)
Definition last_measure (self : Compiler.t) : option ET.ref :=
  match getitem (Compiler.__parts self) (Compiler.__channel self) with
  | Return (Some part) => last_child part (Compiler.__elements self)
  | _ => None
  end.

(** The note element of the last measure of the active channel. *)
Definition last_note (self : Compiler.t) : option ET.ref :=
  match getitem (Compiler.__parts self) (Compiler.__channel self) with
  | Return (Some part) =>
      measure ← last_child part (Compiler.__elements self);
      measure_note measure (Compiler.__elements self)
  | _ => None
  end.

(** The number of measures of the active channel. *)
Definition measure_count (self : Compiler.t) : nat :=
  match getitem (Compiler.__parts self) (Compiler.__channel self) with
  | Return (Some part) =>
      match Compiler.__elements self !! part with
      | Some el => length (ET.children el)
      | None => O
      end
  | _ => O
  end.

(** A note or rest command of the grammar. *)
Definition note_legal (children : list NoteChild) : Prop :=
  is_rest children = true \/ steps_legal children.

(** A length, a dot or a breath mark: what follows the number in a note
    given by its MIDI number. *)
Definition modifier (c : NoteChild) : Prop :=
  match c with
  | Length _ | Dot | Breath => True
  | _ => False
  end.

(** ** run and the parser

    [lark] and [ET.tostring] are libraries; [run] is modelled over what
    they return. *)

(** What [Lark.parse] does: it returns a tree, raises [UnexpectedInput]
    with a position, or raises another [LarkError]. *)
Inductive lark_result : Type :=
  | Parsed (tree : Tree)
  | UnexpectedInput (line column : Z)
  | LarkError.

(** How a call of [run] ends: it returns the list of documents, raises
    [ParsingError], raises another exception of the compiler, raises
    [LookupError] on an encoding Python does not know, or runs on. *)
Inductive run_result : Type :=
  | Scores (scores : list (option string))
  | ParsingError (message : string) (line column : Z)
  | Failed (e : exn)
  | LookupError
  | Unfinished.

Section run.

Variable lark_parse : string -> lark_result.

(** [ET.tostring(score, encoding=encoding, xml_declaration=True,
    pretty_print=pretty).decode(encoding)]; [None] when the encoding is
    unknown. *)
Variable tostring : ET.store -> ET.ref -> string -> bool -> option string.

Variable convert : string -> string.

(** [Parser.parse] *)
Definition parse (program : string) : run_result + Tree :=
  match lark_parse program with
  | Parsed tree => inr tree
  | UnexpectedInput line column =>
      inl (ParsingError "Incorrect MML" line column)
  | LarkError => inl (Failed (InternalError "Internal error"))
  end.

(** The list comprehension of [run]. *)
Fixpoint documents (s : ET.store) (encoding : string) (pretty : bool)
    (scores : list (option ET.ref)) : option (list (option string)) :=
  match scores with
  | [] => Some []
  | None :: scores =>
      rest ← documents s encoding pretty scores; Some (None :: rest)
  | Some score :: scores =>
      document ← tostring s score encoding pretty;
      rest ← documents s encoding pretty scores;
      Some (Some document :: rest)
  end.

Definition run (fuel : nat) (program : string) (encoding : string)
    (minified : bool) : run_result :=
  match parse program with
  | inl raised => raised
  | inr tree =>
      match Compiler.compile convert fuel tree with
      | Compiler.Done self =>
          match documents (Compiler.__elements self) encoding (negb minified)
                  (Compiler.__scores self) with
          | Some scores => Scores scores
          | None => LookupError
          end
      | Compiler.Raised e _ => Failed e
      | Compiler.OutOfFuel => Unfinished
      end
  end.

End run.

(** *** More sample programs *)

(** A parser that returns the tree of [C], and a serialiser that returns
    the tag of the root. *)
Definition sample_parse (program : string) : lark_result :=
  Parsed (Root [Content [NoteCommand [Step "C"]]]).

Definition sample_tostring (s : ET.store) (score : ET.ref)
    (encoding : string) (pretty : bool) : option string :=
  el ← s !! score; Some (ET.tag el).

(** The state after [{m={m}}]. *)
Definition sample_recursive : Compiler.t :=
  state_of (Compiler.visit romaji 1
              (DefineCommand "m" (Content [CallCommand "m"])) start).

(** The body [{m=}] of a loop. *)
Definition sample_defining_body : Tree :=
  Content [DefineCommand "m" (Content [])].

(** ** Pitch: conversions *)

(** The three lookup tables of the class agree: entry [r] of the step
    table is a legal step whose base offset plus entry [r] of the
    alteration table is [r]. *)
Lemma tables_agree (r : Z) (p : Pitch.t) :
  0 <= r < 12 ->
  exists step alter o base,
    getitem ["C"; "C"; "D"; "D"; "E"; "F";
             "F"; "G"; "G"; "A"; "A"; "B"] r = Return step /\
    getitem [0; 1; 0; 1; 0; 0; 1; 0; 1; 0; 1; 0] r = Return alter /\
    Pitch.set_step step p =
      Return (Pitch.mk step (Pitch._alter p) (Pitch._octave p)) /\
    ord step = Return o /\
    getitem [9; 11; 0; 2; 4; 5; 7] (o - 0x41) = Return base /\
    base + alter = r /\ 0 <= alter <= 1.
Proof.
  intros Hr.
  assert (r = 0 \/ r = 1 \/ r = 2 \/ r = 3 \/ r = 4 \/ r = 5 \/ r = 6 \/
          r = 7 \/ r = 8 \/ r = 9 \/ r = 10 \/ r = 11)
    as [H|[H|[H|[H|[H|[H|[H|[H|[H|[H|[H|H]]]]]]]]]]] by lia;
    subst r; do 4 eexists; repeat (split; [reflexivity|]); lia.
Qed.

(** What the [value] setter stores. *)
Lemma set_value_spec (v : Z) (p : Pitch.t) :
  exists step alter o base,
    Pitch.set_value v p =
      Return (Pitch.mk step alter (Z.min (Z.max (v / 12 - 1) (-1)) 9)) /\
    ord step = Return o /\
    getitem [9; 11; 0; 2; 4; 5; 7] (o - 0x41) = Return base /\
    base + alter = v mod 12 /\ 0 <= alter <= 1.
Proof.
  destruct (tables_agree (v mod 12) p) as
    (step & alter & o & base & Hs & Ha & Hset & Ho & Hb & Hsum & Hrange).
  { apply Z.mod_pos_bound; lia. }
  exists step, alter, o, base. repeat split; try assumption; try lia.
  unfold Pitch.set_value. rewrite Hs. cbn [mbind result_bind].
  rewrite Hset. cbn [mbind result_bind]. rewrite Ha. cbn [mbind result_bind].
  unfold Pitch.set_alter, Pitch.set_octave. cbn [Pitch._step Pitch._alter Pitch._octave].
  rewrite Z.mod_small by lia.
  destruct (alter <? 0) eqn:E; [lia | reflexivity].
Qed.

(** The setter never raises, and the octave it stores is clamped. *)
Lemma set_value_total (v : Z) (p : Pitch.t) :
  exists q, Pitch.set_value v p = Return q /\
            -1 <= Pitch._octave q <= 9 /\
            0 <= Pitch._alter q <= 1.
Proof.
  destruct (set_value_spec v p) as (step & alter & o & base & H & _ & _ & _ & Ha).
  eexists. split; [exact H|]. cbn [Pitch._octave Pitch._alter]. lia.
Qed.

(** C7: for every v in [0,127], building a pitch from v and reading its
    value back gives v: toValue(fromValue(v)) = v. *)
Theorem value_roundtrip (v : Z) :
  0 <= v <= 127 ->
  (p ← Pitch.init v; Pitch.value p) = Return v.
Proof.
  intros Hv. unfold Pitch.init.
  destruct (set_value_spec v Pitch.blank)
    as (step & alter & o & base & H & Ho & Hb & Hsum & Ha).
  rewrite H. cbn [mbind result_bind]. unfold Pitch.value.
  cbn [Pitch._step Pitch._alter Pitch._octave].
  rewrite Ho. cbn [mbind result_bind]. rewrite Hb. cbn [mbind result_bind].
  pose proof (Z.div_mod v 12 ltac:(lia)) as Hdm.
  assert (0 <= v / 12 <= 10) as Hq.
  { split; [apply Z.div_pos; lia|].
    apply Z.lt_succ_r, Z.div_lt_upper_bound; lia. }
  f_equal. lia.
Qed.

Lemma value_roundtrip_witness :
  0 <= 61 <= 127 /\ (p ← Pitch.init 61; Pitch.value p) = Return 61.
Proof. split; [lia | apply (value_roundtrip 61); lia]. Defined.

(** C8: setting the alteration to [a] stores [a mod 12], less 12 exactly
    when [a] is negative: -1 is stored as -1, 13 as 1 and -13 as -1.  The
    stored value equals the input exactly for [-12 <= a <= 11], so it does
    equal the input for the negative inputs from -12 to -1 and differs from
    it only below -12. *)
Theorem set_alter_stored (a : Z) (p : Pitch.t) :
  Pitch._alter (Pitch.set_alter a p) = a mod 12 - (if a <? 0 then 12 else 0) /\
  Pitch._alter (Pitch.set_alter (-1) p) = -1 /\
  Pitch._alter (Pitch.set_alter 13 p) = 1 /\
  Pitch._alter (Pitch.set_alter (-13) p) = -1 /\
  (Pitch._alter (Pitch.set_alter a p) = a <-> -12 <= a <= 11).
Proof.
  assert (Pitch._alter (Pitch.set_alter a p)
          = a mod 12 - (if a <? 0 then 12 else 0)) as Heq.
  { unfold Pitch.set_alter. cbn [Pitch._alter].
    destruct (a <? 0); lia. }
  split; [exact Heq|].
  split; [reflexivity|]. split; [reflexivity|]. split; [reflexivity|].
  rewrite Heq.
  destruct (Z.ltb_spec a 0); split; intros Ha; Z.div_mod_to_equations; lia.
Qed.

(** C8, as stated: -1 is negative and congruent to 11, yet the stored
    alteration equals the input. *)
Lemma set_alter_negative_unchanged :
  ~ (forall a p, a < 0 -> 1 <= a mod 12 <= 11 ->
       Pitch._alter (Pitch.set_alter a p) <> a).
Proof.
  intros H. apply (H (-1) Pitch.blank); [lia | | reflexivity].
  change ((-1) mod 12) with 11. lia.
Qed.

(** ** Channel selection *)

(** C2: a channel-select command sets the channel and the local flag and
    then raises [TypeError], because [__init_channel] is called without
    its [channel] argument: no state is reinitialised and no document is
    created. *)
Theorem channel_command_raises (convert : string -> string) (fuel : nat)
    (channel : Z) (self : Compiler.t) :
  Compiler.visit convert (S fuel) (ChannelCommand channel) self =
  Compiler.Raised TypeError
    (Compiler.set_local true (Compiler.set_channel channel self)).
Proof. reflexivity. Qed.

(** The program [:3 C] does not compile: channel 3 has no score. *)
Example channel_3_example :
  exists self,
    Compiler.compile romaji 3
      (Root [Content []; ChannelCommand 3; Content [NoteCommand [Step "C"]]])
    = Compiler.Raised TypeError self /\
    Compiler.__scores self !! 3%nat = Some None.
Proof. eexists. split; reflexivity. Qed.

(** ** The interpreter, one step at a time *)

Section visit_equations.

Variable convert : string -> string.
Variable fuel : nat.

Lemma visit_content children self :
  Compiler.visit convert (S fuel) (Content children) self
  = Compiler.default (Compiler.visit convert fuel) children self.
Proof. reflexivity. Qed.

Lemma visit_root children self :
  Compiler.visit convert (S fuel) (Root children) self
  = Compiler.default (Compiler.visit convert fuel) children self.
Proof. reflexivity. Qed.

Lemma visit_call name self :
  Compiler.visit convert (S fuel) (CallCommand name) self
  = Compiler.call_command (Compiler.visit convert fuel) name self.
Proof. reflexivity. Qed.

Lemma visit_define name content self :
  Compiler.visit convert (S fuel) (DefineCommand name content) self
  = Compiler.define_command name content self.
Proof. reflexivity. Qed.

Lemma visit_loop content count self :
  Compiler.visit convert (S fuel) (LoopCommand content count) self
  = Compiler.loop (Compiler.visit convert fuel) content count self.
Proof. reflexivity. Qed.

Lemma visit_note children self :
  Compiler.visit convert (S fuel) (NoteCommand children) self
  = Compiler.note_command convert children self.
Proof. reflexivity. Qed.

End visit_equations.

(** ** Fuel *)

(** Fuel only bounds the depth of the recursion: a call that ends with
    some fuel ends the same way with more. *)
Section fuel.

Import Compiler.
Variable convert : string -> string.

Section one_more.

Variables visit1 visit2 : Tree -> t -> outcome.
Hypothesis more : forall tree self r,
  visit1 tree self = r -> r <> OutOfFuel -> visit2 tree self = r.

Lemma default_more children self r :
  default visit1 children self = r -> r <> OutOfFuel ->
  default visit2 children self = r.
Proof.
  revert self. induction children as [|tree children IH]; intros self H Hr;
    cbn [default] in *; [exact H|].
  destruct (visit1 tree self) as [self1|e self1|] eqn:H1.
  - rewrite (more _ _ _ H1) by discriminate. apply IH; assumption.
  - rewrite (more _ _ _ H1) by discriminate. exact H.
  - congruence.
Qed.

Lemma loop_more content count self r :
  loop visit1 content count self = r -> r <> OutOfFuel ->
  loop visit2 content count self = r.
Proof.
  revert self. induction count as [|count IH]; intros self H Hr;
    cbn [loop] in *; [exact H|].
  destruct (visit1 content self) as [self1|e self1|] eqn:H1.
  - rewrite (more _ _ _ H1) by discriminate. apply IH; assumption.
  - rewrite (more _ _ _ H1) by discriminate. exact H.
  - congruence.
Qed.

Lemma call_more name self r :
  call_command visit1 name self = r -> r <> OutOfFuel ->
  call_command visit2 name self = r.
Proof.
  unfold call_command. destruct (__macros self !! upper name) as [content|];
    [|auto].
  destruct (visit1 content self) as [self1|e self1|] eqn:H1; intros H Hr.
  - rewrite (more _ _ _ H1) by discriminate. exact H.
  - rewrite (more _ _ _ H1) by discriminate. exact H.
  - congruence.
Qed.

End one_more.

Lemma visit_fuel_more fuel tree self r :
  visit convert fuel tree self = r -> r <> OutOfFuel ->
  visit convert (S fuel) tree self = r.
Proof.
  revert tree self r. induction fuel as [|fuel IH]; intros tree self r H Hr;
    [cbn in H; congruence|].
  destruct tree;
    try (rewrite <- H; reflexivity).
  - rewrite visit_root in *. eapply default_more; eassumption.
  - rewrite visit_content in *. eapply default_more; eassumption.
  - rewrite visit_call in *. eapply call_more; eassumption.
  - rewrite visit_loop in *. eapply loop_more; eassumption.
Qed.

End fuel.

(** ** Macros *)





(** C5: a call of a defined macro whose body finishes returns with the
    length and the octave it was entered with, and with every other
    attribute (key, tempo, macro table, octave-reverse flag, tie tracking,
    documents, channel bookkeeping) as the body left it. *)
Theorem call_restores_length_and_octave (convert : string -> string)
    (fuel : nat) (name : string) (content : Tree)
    (self body_end : Compiler.t) :
  Compiler.__macros self !! upper name = Some content ->
  Compiler.visit convert fuel content self = Compiler.Done body_end ->
  exists self',
    Compiler.visit convert (S fuel) (CallCommand name) self = Compiler.Done self' /\
    Compiler.__length self' = Compiler.__length self /\
    Compiler.__octave self' = Compiler.__octave self /\
    Compiler.__key self' = Compiler.__key body_end /\
    Compiler.__tempo self' = Compiler.__tempo body_end /\
    Compiler.__macros self' = Compiler.__macros body_end /\
    Compiler.__octave_reverse self' = Compiler.__octave_reverse body_end /\
    Compiler.__previous_notations self' = Compiler.__previous_notations body_end /\
    Compiler.__previous_pitch self' = Compiler.__previous_pitch body_end /\
    Compiler.__previous_text self' = Compiler.__previous_text body_end /\
    Compiler.__elements self' = Compiler.__elements body_end /\
    Compiler.__scores self' = Compiler.__scores body_end /\
    Compiler.__parts self' = Compiler.__parts body_end /\
    Compiler.__channel self' = Compiler.__channel body_end /\
    Compiler.__local self' = Compiler.__local body_end /\
    Compiler.__global_key self' = Compiler.__global_key body_end /\
    Compiler.__global_tempo self' = Compiler.__global_tempo body_end.
Proof.
  intros Hdef Hbody. eexists. split.
  - rewrite visit_call. unfold Compiler.call_command.
    rewrite Hdef, Hbody. reflexivity.
  - repeat split.
Qed.

Lemma call_restores_length_and_octave_witness :
  Compiler.__macros sample_defined !! upper "M" = Some sample_body /\
  Compiler.visit romaji 2 sample_body sample_defined
    = Compiler.Done (state_of (Compiler.visit romaji 2 sample_body sample_defined)) /\
  exists self',
    Compiler.visit romaji 3 (CallCommand "M") sample_defined = Compiler.Done self' /\
    Compiler.__length self' = 4 /\ Compiler.__octave self' = 4 /\
    Compiler.__key self' = 2 /\ Compiler.__tempo self' = 90.
Proof.
  assert (Compiler.__macros sample_defined !! upper "M" = Some sample_body)
    as H1 by (vm_compute; reflexivity).
  assert (Compiler.visit romaji 2 sample_body sample_defined
          = Compiler.Done
              (state_of (Compiler.visit romaji 2 sample_body sample_defined)))
    as H2 by (vm_compute; reflexivity).
  split; [exact H1|]. split; [exact H2|].
  destruct (call_restores_length_and_octave romaji 2 "M" sample_body
              sample_defined _ H1 H2)
    as (self' & Hcall & Hlen & Hoct & Hkey & Htempo & _).
  exists self'. split; [exact Hcall|].
  rewrite Hlen, Hoct, Hkey, Htempo. vm_compute. repeat split; reflexivity.
Defined.

(** ** Loops *)

Section loops.

Variable run : Tree -> Compiler.t -> Compiler.outcome.
Variable content : Tree.

Lemma loop_unrolled (n : nat) (self self' : Compiler.t) :
  Compiler.loop run content n self = Compiler.Done self' <->
  unrolled (run content) n self self'.
Proof.
  split.
  - revert self. induction n as [|n IH]; intros self H; cbn [Compiler.loop] in H.
    + injection H as <-. constructor.
    + destruct (run content self) as [body_end| |] eqn:Hbody; try discriminate.
      econstructor; [exact Hbody | apply IH, H].
  - induction 1 as [|n self body_end self' Hbody _ IH]; cbn [Compiler.loop].
    + reflexivity.
    + rewrite Hbody. exact IH.
Qed.

Lemma unrolled_octave (n : nat) (self self' : Compiler.t) :
  unrolled (run content) n self self' ->
  Compiler.__octave self' = Compiler.__octave self.
Proof.
  induction 1 as [|n self body_end self' _ _ IH]; [reflexivity|].
  rewrite IH. reflexivity.
Qed.

(** After at least one iteration the attributes are those the last run
    of the body left, but for the octave. *)
Lemma unrolled_last (n : nat) (self self' : Compiler.t) :
  unrolled (run content) (S n) self self' ->
  exists entry body_end,
    run content entry = Compiler.Done body_end /\
    self' = Compiler.set_octave (Compiler.__octave self) body_end.
Proof.
  revert self. induction n as [|n IH]; intros self H.
  - inversion H as [|? ? body_end ? Hbody Hrest]; subst.
    inversion Hrest; subst. eauto.
  - inversion H as [|? ? body_end ? Hbody Hrest]; subst.
    destruct (IH _ Hrest) as (entry & last_end & Hlast & ->).
    exists entry, last_end. split; [exact Hlast|]. reflexivity.
Qed.

End loops.

(** C4: a loop with body [content] and count [n] returns exactly when
    [n] successive interpretations of the body return, each started from
    the attributes the previous one left with the octave put back to what
    it was before that iteration.  The octave after the loop is the octave
    before it; every other attribute is as the last interpretation of the
    body left it, and a loop with count 0 changes nothing. *)
Theorem loop_command_unrolls (convert : string -> string) (fuel : nat)
    (content : Tree) (n : nat) (self self' : Compiler.t) :
  (Compiler.visit convert (S fuel) (LoopCommand content n) self
     = Compiler.Done self' <->
   unrolled (Compiler.visit convert fuel content) n self self') /\
  (unrolled (Compiler.visit convert fuel content) n self self' ->
   Compiler.__octave self' = Compiler.__octave self /\
   (n = O -> self' = self) /\
   (n <> O ->
    exists entry body_end,
      Compiler.visit convert fuel content entry = Compiler.Done body_end /\
      self' = Compiler.set_octave (Compiler.__octave self) body_end)).
Proof.
  split.
  - rewrite visit_loop. apply loop_unrolled.
  - intros H. split; [eapply unrolled_octave, H|]. split.
    + intros ->. inversion H. reflexivity.
    + intros Hn. destruct n as [|n]; [congruence|].
      eapply unrolled_last, H.
Qed.

Lemma loop_command_unrolls_witness :
  Compiler.visit romaji 3 sample_loop start
    = Compiler.Done (state_of (Compiler.visit romaji 3 sample_loop start)) /\
  Compiler.__octave (state_of (Compiler.visit romaji 3 sample_loop start))
    = Compiler.__octave start.
Proof.
  assert (Compiler.visit romaji 3 sample_loop start
          = Compiler.Done (state_of (Compiler.visit romaji 3 sample_loop start)))
    as H by (vm_compute; reflexivity).
  split; [exact H|].
  pose proof (loop_command_unrolls romaji 2
                (Content [OctaveCommand 5; NoteCommand [Step "C"]; OctaveCommand 6])
                2 start (state_of (Compiler.visit romaji 3 sample_loop start)))
    as [Hiff Hoct].
  exact (proj1 (Hoct (proj1 Hiff H))).
Defined.

(** ** The channel octave *)

(** C10, as stated: six octave-up commands leave the channel octave at 10. *)
Lemma octave_leaves_range :
  ~ (forall convert fuel tree self,
       Compiler.compile convert fuel tree = Compiler.Done self ->
       -1 <= Compiler.__octave self <= 9).
Proof.
  intros H.
  pose (tree := Root [Content [OctaveUpCommand; OctaveUpCommand; OctaveUpCommand;
                               OctaveUpCommand; OctaveUpCommand; OctaveUpCommand]]).
  assert (Compiler.compile romaji 3 tree
          = Compiler.Done (state_of (Compiler.compile romaji 3 tree)))
    as Hrun by (vm_compute; reflexivity).
  apply H in Hrun.
  assert (Compiler.__octave (state_of (Compiler.compile romaji 3 tree)) = 10)
    as Hten by (vm_compute; reflexivity).
  lia.
Qed.

(** ** The element store *)

Section store.

Local Open Scope nat_scope.
Implicit Types (base new s : ET.store) (n k p r : nat).

Lemma SubElement_first s p tag attrib :
  ET.SubElement p tag attrib s =
  (length s + 0,
   alter (ET.append (length s + 0)) p s ++ [ET.mkElement tag attrib None []]).
Proof. unfold ET.SubElement. rewrite Nat.add_0_r. reflexivity. Qed.

(** A child of an element allocated since [base]. *)
Lemma SubElement_new n base new k tag attrib :
  length base = n -> k < length new ->
  ET.SubElement (n + k) tag attrib (base ++ new) =
  (n + length new,
   base ++ (alter (ET.append (n + length new)) k new
            ++ [ET.mkElement tag attrib None []])).
Proof.
  intros <- Hk. unfold ET.SubElement.
  rewrite length_app, alter_app_r, <- app_assoc. reflexivity.
Qed.

(** A child of an element of [base]. *)
Lemma SubElement_old n base new p tag attrib :
  length base = n -> p < n ->
  ET.SubElement p tag attrib (base ++ new) =
  (n + length new,
   alter (ET.append (n + length new)) p base
     ++ (new ++ [ET.mkElement tag attrib None []])).
Proof.
  intros <- Hp. unfold ET.SubElement.
  rewrite length_app, alter_app_l, <- app_assoc by lia. reflexivity.
Qed.

Lemma set_text_new n base new k txt :
  length base = n ->
  ET.set_text (n + k) txt (base ++ new) = base ++ alter (ET.with_text txt) k new.
Proof. intros <-. unfold ET.set_text. apply alter_app_r. Qed.

Lemma lookup_new n base new k :
  length base = n -> (base ++ new) !! (n + k) = new !! k.
Proof. intros <-. rewrite lookup_app_r by lia. f_equal. lia. Qed.

Lemma lookup_new0 n base new :
  length base = n -> (base ++ new) !! n = new !! 0.
Proof. intros <-. rewrite lookup_app_r by lia. f_equal. lia. Qed.

Lemma lookup_old n base new r :
  length base = n -> r < n -> (base ++ new) !! r = base !! r.
Proof. intros <- Hr. apply lookup_app_l, Hr. Qed.

Lemma keeps_tags_refl s : keeps_tags s s.
Proof. intros r el H. eauto. Qed.

Lemma keeps_tags_trans s1 s2 s3 :
  keeps_tags s1 s2 -> keeps_tags s2 s3 -> keeps_tags s1 s3.
Proof.
  intros H12 H23 r el H.
  destruct (H12 r el H) as (el2 & H2 & T2).
  destruct (H23 r el2 H2) as (el3 & H3 & T3).
  exists el3. split; [exact H3 | congruence].
Qed.

Lemma keeps_tags_app s new : keeps_tags s (s ++ new).
Proof.
  intros r el H. exists el. split; [apply lookup_app_l_Some, H | reflexivity].
Qed.

Lemma keeps_tags_alter_append s p k : keeps_tags s (alter (ET.append k) p s).
Proof.
  intros r el H. destruct (decide (p = r)) as [->|Hne].
  - rewrite list_lookup_alter_eq, H. eexists. split; reflexivity.
  - rewrite list_lookup_alter_ne, H by exact Hne. eexists. split; reflexivity.
Qed.

Lemma tagged_keeps s s' r name :
  keeps_tags s s' -> tagged r name s -> tagged r name s'.
Proof.
  intros Hk (el & Hel & Htag). destruct (Hk r el Hel) as (el' & Hel' & Htag').
  exists el'. split; [exact Hel' | congruence].
Qed.

End store.

(** Symbolic execution of a run of [SubElement] and [set_text] calls on a
    store [base ++ new], where [new] lists the elements allocated so far
    and [n] is the length of [base]. *)
Local Arguments ET.append child !e /.
Local Arguments ET.with_text txt !e /.

Ltac heap_side :=
  first [ assumption | rewrite ?length_alter; assumption | cbn; lia ].
Ltac heap_simpl :=
  cbn [length app alter list_alter ET.append ET.with_text
       ET.tag ET.attrib ET.text ET.children fst snd].
Ltac heap_step n :=
  first [ rewrite (SubElement_new n) by heap_side
        | rewrite (set_text_new n) by heap_side ];
  heap_simpl.
Ltac heap_old n base' Hbase' Hn' :=
  rewrite (SubElement_old n) by heap_side;
  match goal with
  | |- context [alter ?f ?q ?b ++ _] =>
      pose proof (length_alter f b q) as Hn';
      remember (alter f q b) as base' eqn:Hbase'
  end;
  match goal with
  | |- context [?b ++ (?l ++ [?e])] =>
      let l' := eval cbn [app] in (l ++ [e]) in
      change (b ++ (l ++ [e])) with (b ++ l')
  end;
  cbn [length] in *.
Ltac heap_read n :=
  repeat (progress (unfold time_signature, has_tie, is_tie, ET.truth, ET.find,
                      ET.findtext;
                    rewrite ?(lookup_new0 n), ?(lookup_new n) by heap_side;
                    cbn)).

(** ** note_command: what it writes *)

Lemma tie_test_previous (text : string) (self : Compiler.t) :
  Compiler.tie_test text self = true ->
  exists q, Compiler.__previous_notations self = Some q.
Proof.
  unfold Compiler.tie_test.
  destruct (Compiler.__previous_notations self) as [q|]; [eauto | discriminate].
Qed.

Section note_effect.

Import Compiler.
Variable convert : string -> string.

(** The state and the store after a note command, given the outcome of
    its three fallible steps: the loop over the children, the pitch
    resolution and the lookup of the part. *)
Lemma note_effect children self l pitch part el_part :
  scan children
    (mkLocals false EmptyString EmptyString 0 (Pitch.mk "C" 0 (-1))
       (__length self) 0 false)
    = Return l ->
  (if negb (rest_ l) then resolve l self else Return (pitch_ l))
    = Return pitch ->
  getitem (__parts self) (__channel self) = Return (Some part) ->
  __elements self !! part = Some el_part ->
  (forall q, __previous_notations self = Some q ->
     (q < length (__elements self))%nat /\ q <> part) ->
  let s := __elements self in
  let n := length s in
  exists s',
    note_command convert children self
    = Done (set_previous_text (if rest_ l then None else Some (text_ l))
              (set_previous_pitch (Some pitch)
                 (set_previous_notations
                    (if rest_ l then None else Some (n + 18)%nat)
                    (set_elements s' self)))) /\
    keeps_tags s s' /\
    s' !! part = Some (ET.append n el_part) /\
    time_signature n s'
      = Some (str (2 * 2 ^ dot_ l - 1), str (length_ l * 2 ^ dot_ l)) /\
    (rest_ l = false ->
       tagged (n + 18)%nat "notations" s' /\
       ET.truth (n + 18)%nat s' = true /\
       has_tie (n + 18)%nat "stop" s' = tie_test (text_ l) self) /\
    (rest_ l = false -> tie_test (text_ l) self = true ->
       exists q elq t,
         __previous_notations self = Some q /\ s !! q = Some elq /\
         s' !! q = Some (ET.append t elq) /\
         s' !! t = Some (tie_element "start")) /\
    (rest_ l = true \/ tie_test (text_ l) self = false ->
       forall r, r <> part -> (r < n)%nat -> s' !! r = s !! r).
Proof.
  intros Hscan Hpitch Hpart Hel Hq s n. subst s n. unfold keeps_tags, tagged.
  unfold note_command.
  change (Pitch.init 0) with (Return (Pitch.mk "C" 0 (-1))).
  cbn [mbind result_bind]. rewrite Hscan, Hpitch. cbv zeta.
  generalize (2 * 2 ^ dot_ l - 1) (length_ l * 2 ^ dot_ l).
  intros beat beat_type.
  assert (Hpn : (part < length (__elements self))%nat)
    by (eapply lookup_lt_Some, Hel).
  pose proof (length_alter (ET.append (length (__elements self) + 0)%nat)
                (__elements self) part) as Hn.
  destruct (rest_ l) eqn:Hrest; cbn [negb];
    cbn [__parts __channel __tempo __elements __previous_notations
         set_previous_text set_previous_pitch];
    rewrite Hpart; unfold emit_measure; rewrite SubElement_first;
    generalize (str beat) (str beat_type) (str (__tempo self));
    intros sb sbt st;
    remember (length (__elements self)) as n eqn:Hlen;
    remember (alter (ET.append (n + 0)%nat) part (__elements self))
      as base eqn:Hbase;
    repeat heap_step n.
  - eexists. split; [reflexivity|].
    split; [|split; [|split; [|split; [|split]]]].
    + eapply keeps_tags_trans; [|apply keeps_tags_app].
      rewrite Hbase. apply keeps_tags_alter_append.
    + rewrite (lookup_old n) by heap_side.
      rewrite Hbase, list_lookup_alter_eq, Hel, Nat.add_0_r. reflexivity.
    + heap_read n. reflexivity.
    + discriminate.
    + discriminate.
    + intros _ r Hr Hrn. rewrite (lookup_old n) by heap_side.
      rewrite Hbase. apply list_lookup_alter_ne. congruence.
  - unfold emit_pitched.
    generalize (str (Pitch._alter pitch)) (str (Pitch._octave pitch))
               (convert (text_ l)).
    intros sa so lyr.
    cbn [__previous_notations set_previous_text set_previous_pitch].
    destruct (tie_test (text_ l) self) eqn:Htie.
    + destruct (tie_test_previous _ _ Htie) as [q Hprev]. rewrite Hprev.
      destruct (Hq q Hprev) as [Hqn Hqp].
      destruct (lookup_lt_is_Some_2 (__elements self) q ltac:(lia))
        as [elq Helq].
      destruct (nonempty (text_ l)), (breath_ l); repeat heap_step n;
        heap_old n base' Hbase' Hn'; rewrite Hn in Hn'; repeat heap_step n.
      all: match goal with |- context [set_elements ?S _] => exists S end;
           (split; [reflexivity|]).
      all: split; [|split; [|split; [|split; [|split]]]].
      all: try (heap_read n; reflexivity).
      all: try (intros [H|H]; discriminate).
      all: try (eapply keeps_tags_trans; [|apply keeps_tags_app];
                rewrite Hbase', Hbase;
                eapply keeps_tags_trans; apply keeps_tags_alter_append).
      all: try (rewrite (lookup_old n) by heap_side;
                rewrite Hbase', list_lookup_alter_ne by exact Hqp;
                rewrite Hbase, list_lookup_alter_eq, Hel, Nat.add_0_r;
                reflexivity).
      all: try (intros _; split;
                [eexists; split;
                   [rewrite (lookup_new n) by heap_side; reflexivity
                   |reflexivity]
                |split; heap_read n; reflexivity]).
      all: intros _ _; exists q, elq; eexists; split; [reflexivity|];
           split; [exact Helq|]; split;
           [ rewrite (lookup_old n) by heap_side;
             rewrite Hbase', list_lookup_alter_eq, Hbase;
             rewrite list_lookup_alter_ne by congruence;
             rewrite Helq; reflexivity
           | rewrite (lookup_new n) by heap_side; reflexivity ].
    + destruct (nonempty (text_ l)), (breath_ l); repeat heap_step n.
      all: match goal with |- context [set_elements ?S _] => exists S end;
           (split; [reflexivity|]).
      all: split; [|split; [|split; [|split; [|split]]]].
      all: try (heap_read n; reflexivity).
      all: try (intros _ H; discriminate).
      all: try (eapply keeps_tags_trans; [|apply keeps_tags_app];
                rewrite Hbase; apply keeps_tags_alter_append).
      all: try (rewrite (lookup_old n) by heap_side;
                rewrite Hbase, list_lookup_alter_eq, Hel, Nat.add_0_r;
                reflexivity).
      all: try (intros _; split;
                [eexists; split;
                   [rewrite (lookup_new n) by heap_side; reflexivity
                   |reflexivity]
                |split; heap_read n; reflexivity]).
      all: intros _ r Hr Hrn; rewrite (lookup_old n) by heap_side;
           rewrite Hbase; apply list_lookup_alter_ne; congruence.
Qed.

End note_effect.

(** ** note_command: when it returns *)

Ltac splits := repeat match goal with |- _ /\ _ => split end.

Lemma getitem_lookup {A : Type} (l : list A) (i : Z) (x : A) :
  getitem l i = Return x -> exists k, l !! k = Some x.
Proof.
  unfold getitem. destruct (_ <? 0); [discriminate|].
  destruct (l !! _) as [y|] eqn:H; [|discriminate].
  intros [= <-]. eauto.
Qed.

Lemma legal_step_readable (step : string) :
  legal_step step ->
  exists o base, ord step = Return o /\
                 getitem [9; 11; 0; 2; 4; 5; 7] (o - 0x41) = Return base.
Proof.
  unfold legal_step. intros H.
  repeat (apply elem_of_cons in H as [->|H]; [do 2 eexists; split; reflexivity|]).
  apply elem_of_nil in H. destruct H.
Qed.

Lemma set_value_ok (v : Z) (p : Pitch.t) :
  exists q, Pitch.set_value v p = Return q /\ pitch_ok q.
Proof.
  destruct (set_value_spec v p) as (step & alter & o & base & H & Ho & Hb & _ & _).
  eexists. split; [exact H|]. split; cbn [Pitch._step Pitch._octave]; [eauto | lia].
Qed.

Lemma add_value_ok (key : Z) (p : Pitch.t) :
  pitch_ok p -> exists q, Pitch.add_value key p = Return q /\ pitch_ok q.
Proof.
  intros [(o & base & Ho & Hb) _]. unfold Pitch.add_value, Pitch.value.
  rewrite Ho. cbn [mbind result_bind]. rewrite Hb. cbn [mbind result_bind].
  apply set_value_ok.
Qed.

Section note_total.

Import Compiler.

Lemma scan_fields children l :
  pitch_ok (pitch_ l) ->
  exists l',
    scan children l = Return l' /\
    rest_ l' = rest_ l || is_rest children /\
    text_ l' = lyric children (text_ l) /\
    dot_ l' = dot_ l + dots children /\
    length_ l' = effective_length children (length_ l) /\
    pitch_ok (pitch_ l') /\
    (steps_legal children ->
     step_ l = EmptyString \/ legal_step (upper (step_ l)) ->
     step_ l' = EmptyString \/ legal_step (upper (step_ l'))).
Proof.
  revert l. induction children as [|child children IH]; intros l Hok.
  - exists l. cbn [scan is_rest existsb lyric dots effective_length].
    rewrite orb_false_r, Z.add_0_r. splits; auto.
  - assert (exists l1,
              scan_child child l = Return l1 /\
              rest_ l1 = rest_ l || is_rest [child] /\
              text_ l1 = lyric [child] (text_ l) /\
              dot_ l1 = dot_ l + dots [child] /\
              length_ l1 = effective_length [child] (length_ l) /\
              pitch_ok (pitch_ l1) /\
              ((forall s, child = Step s -> legal_step (upper s)) ->
               step_ l = EmptyString \/ legal_step (upper (step_ l)) ->
               step_ l1 = EmptyString \/ legal_step (upper (step_ l1)))) as Hchild.
    { destruct l as [rest text step alter pitch length dot breath].
      cbn [pitch_ rest_ text_ dot_ length_ step_] in *.
      destruct child as [| s | s | s | v | v | |];
        cbn [scan_child is_rest existsb lyric dots effective_length];
        try (eexists; split; [reflexivity|];
             cbn [pitch_ rest_ text_ dot_ length_ step_];
             rewrite ?orb_false_r, ?orb_true_r, ?Z.add_0_r;
             splits; auto; fail).
      - destruct (String.eqb s "-"); eexists; (split; [reflexivity|]);
          cbn [pitch_ rest_ text_ dot_ length_ step_];
          rewrite ?orb_false_r, ?Z.add_0_r; splits; auto.
      - destruct (set_value_ok v pitch) as (q & Hq & Hqok). rewrite Hq.
        cbn [mbind result_bind]. eexists. split; [reflexivity|].
        cbn [pitch_ rest_ text_ dot_ length_ step_].
        rewrite ?orb_false_r, ?Z.add_0_r. splits; auto. }
    destruct Hchild as (l1 & H1 & Hr1 & Ht1 & Hd1 & Hl1 & Hok1 & Hs1).
    destruct (IH l1 Hok1) as (l' & H' & Hr' & Ht' & Hd' & Hl' & Hok' & Hs').
    exists l'. cbn [scan]. rewrite H1. cbn [mbind result_bind].
    split; [exact H'|].
    split; [rewrite Hr', Hr1; cbn [is_rest existsb];
            destruct child; cbn; rewrite ?orb_false_r, <- ?orb_assoc;
            reflexivity|].
    split; [rewrite Ht', Ht1; destruct child; reflexivity|].
    split; [rewrite Hd', Hd1; destruct child; cbn [dots]; lia|].
    split; [rewrite Hl', Hl1; destruct child; reflexivity|].
    split; [exact Hok'|].
    intros Hlegal Hstep. apply Hs'.
    + intros s Hin. apply Hlegal. right. exact Hin.
    + apply Hs1; [|exact Hstep].
      intros s ->. apply Hlegal. left.
Qed.

Lemma resolve_total l self :
  pitch_ok (pitch_ l) ->
  step_ l = EmptyString \/ legal_step (upper (step_ l)) ->
  exists pitch, resolve l self = Return pitch /\ pitch_ok pitch.
Proof.
  intros Hok Hstep. unfold resolve.
  destruct (nonempty (step_ l)) eqn:Hne.
  - destruct Hstep as [Hempty|Hlegal]; [rewrite Hempty in Hne; discriminate|].
    unfold Pitch.set_step. fold (legal_step (upper (step_ l))).
    rewrite bool_decide_eq_true_2 by exact Hlegal.
    cbn [mbind result_bind]. apply add_value_ok.
    split; [|cbn [Pitch.set_octave Pitch._octave]; lia].
    apply legal_step_readable, Hlegal.
  - cbn [mbind result_bind]. apply add_value_ok, Hok.
Qed.

Lemma initial_pitch_ok : pitch_ok (Pitch.mk "C" 0 (-1)).
Proof.
  split; [|cbn; lia]. apply legal_step_readable.
  unfold legal_step. left.
Qed.

(** In a state of a compilation, a note command whose step children
    are letters of the grammar passes its three fallible steps. *)
Lemma note_total children self :
  wf self -> is_rest children = true \/ steps_legal children ->
  exists l pitch part el_part,
    scan children
      (mkLocals false EmptyString EmptyString 0 (Pitch.mk "C" 0 (-1))
       (__length self) 0 false)
      = Return l /\
    (if negb (rest_ l) then resolve l self else Return (pitch_ l))
      = Return pitch /\
    getitem (__parts self) (__channel self) = Return (Some part) /\
    __elements self !! part = Some el_part /\
    (forall q, __previous_notations self = Some q ->
       (q < length (__elements self))%nat /\ q <> part) /\
    rest_ l = is_rest children /\
    text_ l = lyric children EmptyString /\
    dot_ l = dots children /\
    length_ l = effective_length children (__length self) /\
    pitch_ok pitch.
Proof.
  intros [Hparts [part Hpart] Hnot] Hlegal.
  destruct (scan_fields children
              (mkLocals false EmptyString EmptyString 0 (Pitch.mk "C" 0 (-1))
                   (__length self)
                 0 false) initial_pitch_ok)
    as (l & Hscan & Hr & Ht & Hd & Hl & Hok & Hs).
  cbn [rest_ text_ dot_ length_ step_ orb] in Hr, Ht, Hd, Hl, Hs.
  assert (exists pitch,
            (if negb (rest_ l) then resolve l self else Return (pitch_ l))
            = Return pitch /\ pitch_ok pitch) as (pitch & Hpitch & Hpok).
  { destruct (rest_ l); cbn [negb]; [eauto|].
    destruct Hlegal as [Hrest|Hlegal]; [congruence|].
    apply resolve_total; [exact Hok|]. apply Hs; [exact Hlegal|]. left.
    reflexivity. }
  destruct (getitem_lookup _ _ _ Hpart) as [k Hk].
  destruct (Hparts k part Hk) as (el_part & Hel & Htag).
  exists l, pitch, part, el_part.
  splits; try assumption.
  intros q H. destruct (Hnot q H) as (elq & Helq & Htagq). split.
  - eapply lookup_lt_Some, Helq.
  - intros ->. rewrite Hel in Helq. injection Helq as <-.
    rewrite Htag in Htagq. discriminate.
Qed.

(** Conversely, a note command that returns has passed them. *)
Lemma note_done_inv convert children self self' :
  note_command convert children self = Done self' ->
  exists l pitch part,
    scan children
      (mkLocals false EmptyString EmptyString 0 (Pitch.mk "C" 0 (-1))
       (__length self) 0 false)
      = Return l /\
    (if negb (rest_ l) then resolve l self else Return (pitch_ l))
      = Return pitch /\
    getitem (__parts self) (__channel self) = Return (Some part).
Proof.
  unfold note_command.
  change (Pitch.init 0) with (Return (Pitch.mk "C" 0 (-1))).
  cbn [mbind result_bind].
  destruct (scan children _) as [l|] eqn:Hscan; [|discriminate].
  destruct (if negb (rest_ l) then _ else _) as [pitch|] eqn:Hpitch;
    [|discriminate].
  cbv zeta.
  assert (__parts (if negb (rest_ l)
                   then set_previous_text (Some (text_ l))
                          (set_previous_pitch (Some pitch) self)
                   else self) = __parts self) as -> by (destruct (rest_ l); reflexivity).
  assert (__channel (if negb (rest_ l)
                     then set_previous_text (Some (text_ l))
                            (set_previous_pitch (Some pitch) self)
                     else self) = __channel self) as -> by (destruct (rest_ l); reflexivity).
  destruct (getitem (__parts self) (__channel self)) as [[part|]|] eqn:Hpart;
    try discriminate.
  intros _. exists l, pitch, part. auto.
Qed.

End note_total.

(** ** States of a compilation *)

Lemma wf_same (self self' : Compiler.t) :
  Compiler.__parts self' = Compiler.__parts self ->
  Compiler.__channel self' = Compiler.__channel self ->
  Compiler.__previous_notations self' = Compiler.__previous_notations self ->
  Compiler.__elements self' = Compiler.__elements self ->
  wf self -> wf self'.
Proof.
  intros Hp Hc Hn He [H1 H2 H3].
  split; rewrite ?Hp, ?Hc, ?Hn, ?He; assumption.
Qed.

Lemma wf_start : wf start.
Proof.
  split.
  - intros i part H.
    destruct i as [|i]; [injection H as <-; eexists; split; reflexivity|].
    do 16 (destruct i as [|i]; [discriminate|]). discriminate.
  - exists 1%nat. reflexivity.
  - intros q H. discriminate.
Qed.

Section wf_preserved.

Import Compiler.
Variable convert : string -> string.

Lemma wf_note children self self' :
  wf self -> note_command convert children self = Done self' -> wf self'.
Proof.
  intros Hwf Hdone.
  destruct (note_done_inv _ _ _ _ Hdone) as (l & pitch & part & Hscan & Hpitch & Hpart).
  pose proof Hwf as [Hparts Hactive Hnot].
  destruct (getitem_lookup _ _ _ Hpart) as [k Hk].
  destruct (Hparts k part Hk) as (el_part & Hel & Htag).
  assert (forall q, __previous_notations self = Some q ->
            (q < length (__elements self))%nat /\ q <> part) as Hq.
  { intros q H. destruct (Hnot q H) as (elq & Helq & Htagq). split.
    - eapply lookup_lt_Some, Helq.
    - intros ->. rewrite Hel in Helq. injection Helq as <-.
      rewrite Htag in Htagq. discriminate. }
  destruct (note_effect convert children self l pitch part el_part
              Hscan Hpitch Hpart Hel Hq)
    as (s' & Heq & Hkeep & _ & _ & Hnotations & _ & _).
  rewrite Heq in Hdone. injection Hdone as <-.
  split; cbn [__parts __channel __previous_notations __elements
              set_previous_text set_previous_pitch set_previous_notations
              set_elements].
  - intros i p Hp. eapply tagged_keeps; [exact Hkeep|]. eapply Hparts, Hp.
  - exact Hactive.
  - intros q Hqeq. destruct (rest_ l); [discriminate|].
    injection Hqeq as <-. apply Hnotations. reflexivity.
Qed.

Section with_visit.

Variable visit : Tree -> t -> outcome.
Hypothesis visit_wf : forall tree self self',
  wf self -> visit tree self = Done self' -> wf self'.

Lemma wf_default children self self' :
  wf self -> default visit children self = Done self' -> wf self'.
Proof.
  revert self. induction children as [|tree children IH]; intros self Hwf H;
    cbn [default] in H.
  - injection H as <-. exact Hwf.
  - destruct (visit tree self) as [self1| |] eqn:H1; try discriminate.
    eapply IH; [|exact H]. eapply visit_wf; eassumption.
Qed.

Lemma wf_loop content count self self' :
  wf self -> loop visit content count self = Done self' -> wf self'.
Proof.
  revert self. induction count as [|count IH]; intros self Hwf H;
    cbn [loop] in H.
  - injection H as <-. exact Hwf.
  - destruct (visit content self) as [self1| |] eqn:H1; try discriminate.
    eapply IH; [|exact H].
    eapply wf_same; [..|eapply visit_wf; eassumption]; reflexivity.
Qed.

Lemma wf_call name self self' :
  wf self -> call_command visit name self = Done self' -> wf self'.
Proof.
  intros Hwf H. unfold call_command in H.
  destruct (__macros self !! upper name) as [content|]; [|discriminate].
  destruct (visit content self) as [self1| |] eqn:H1; try discriminate.
  injection H as <-.
  eapply wf_same; [..|eapply visit_wf; eassumption]; reflexivity.
Qed.

End with_visit.

(** Every command keeps a state of a compilation one. *)
Lemma wf_visit fuel tree self self' :
  wf self -> visit convert fuel tree self = Done self' -> wf self'.
Proof.
  revert tree self self'. induction fuel as [|fuel IH]; intros tree self self' Hwf H;
    [discriminate|].
  destruct tree; cbn [visit] in H.
  - eapply wf_default; eassumption.
  - eapply wf_default; eassumption.
  - discriminate.
  - eapply wf_call; eassumption.
  - unfold define_command in H.
    destruct (__macros self !! upper name); [discriminate|].
    injection H as <-. eapply wf_same; [..|exact Hwf]; reflexivity.
  - eapply wf_note; eassumption.
  - unfold key_command in H.
    destruct (negb _); injection H as <-;
      (eapply wf_same; [..|exact Hwf]; reflexivity).
  - injection H as <-. eapply wf_same; [..|exact Hwf]; reflexivity.
  - eapply wf_loop; eassumption.
  - injection H as <-. eapply wf_same; [..|exact Hwf]; reflexivity.
  - unfold octave_up_command in H.
    destruct (__octave_reverse self); injection H as <-;
      (eapply wf_same; [..|exact Hwf]; reflexivity).
  - unfold octave_down_command in H.
    destruct (__octave_reverse self); injection H as <-;
      (eapply wf_same; [..|exact Hwf]; reflexivity).
  - injection H as <-. eapply wf_same; [..|exact Hwf]; reflexivity.
  - unfold tempo_command in H.
    destruct (negb _); injection H as <-;
      (eapply wf_same; [..|exact Hwf]; reflexivity).
  - injection H as <-. exact Hwf.
Qed.

(** The state a compilation ends in. *)
Lemma wf_compile fuel tree self :
  compile convert fuel tree = Done self -> wf self.
Proof.
  unfold compile. change new with (Done start). apply wf_visit, wf_start.
Qed.

End wf_preserved.

(** ** Durations *)

Lemma last_snoc_child (s : ET.store) (e child : nat) (el : ET.Element) :
  s !! e = Some (ET.append child el) -> last_child e s = Some child.
Proof.
  intros H. unfold last_child. rewrite H. cbn. apply last_snoc.
Qed.

(** C9: in a state of a compilation, a note or rest command with [d] dot
    children and effective length [L] (its length child if it has one,
    else the channel's length) returns, and the measure it appends to the
    active part has beats [2 * 2^d - 1] and beat-type [L * 2^d]. *)
Theorem note_time_signature (convert : string -> string) (fuel : nat)
    (children : list NoteChild) (self : Compiler.t) :
  wf self ->
  is_rest children = true \/ steps_legal children ->
  exists self',
    Compiler.visit convert (S fuel) (NoteCommand children) self
      = Compiler.Done self' /\
    last_time_signature self'
      = Some (str (2 * 2 ^ dots children - 1),
              str (effective_length children (Compiler.__length self)
                   * 2 ^ dots children)).
Proof.
  intros Hwf Hlegal.
  destruct (note_total children self Hwf Hlegal)
    as (l & pitch & part & el_part & Hscan & Hpitch & Hpart & Hel & Hq
        & _ & _ & Hdots & Hlength & _).
  destruct (note_effect convert children self l pitch part el_part
              Hscan Hpitch Hpart Hel Hq)
    as (s' & Heq & _ & Hlast & Htime & _).
  eexists. split; [rewrite visit_note; exact Heq|].
  unfold last_time_signature.
  cbn [Compiler.__parts Compiler.__channel Compiler.__elements
       Compiler.set_previous_text Compiler.set_previous_pitch
       Compiler.set_previous_notations Compiler.set_elements].
  rewrite Hpart, (last_snoc_child _ _ _ _ Hlast). cbn [mbind option_bind].
  rewrite Htime, Hdots, Hlength. reflexivity.
Qed.

Lemma steps_legal_C (rest : list NoteChild) :
  steps_legal rest -> steps_legal (Step "C" :: rest).
Proof.
  intros H s Hin. apply elem_of_cons in Hin as [Heq|Hin]; [|apply H, Hin].
  injection Heq as ->. change (upper "C") with "C". unfold legal_step. left.
Qed.

Lemma steps_legal_other (child : NoteChild) (rest : list NoteChild) :
  (forall s, child <> Step s) -> steps_legal rest -> steps_legal (child :: rest).
Proof.
  intros Hc H s Hin. apply elem_of_cons in Hin as [Heq|Hin]; [|apply H, Hin].
  destruct (Hc s). congruence.
Qed.

Lemma steps_legal_nil : steps_legal [].
Proof. intros s Hin. apply elem_of_nil in Hin. destruct Hin. Qed.

Lemma note_time_signature_witness :
  wf start /\
  (is_rest [Step "C"; Dot] = true \/ steps_legal [Step "C"; Dot]) /\
  exists self',
    Compiler.visit romaji 1 (NoteCommand [Step "C"; Dot]) start
      = Compiler.Done self' /\
    last_time_signature self' = Some ("3", "8").
Proof.
  assert (steps_legal [Step "C"; Dot]) as Hlegal.
  { apply steps_legal_C, steps_legal_other; [discriminate | apply steps_legal_nil]. }
  split; [exact wf_start|]. split; [right; exact Hlegal|].
  exact (note_time_signature romaji 0 [Step "C"; Dot] start wf_start
           (or_intror Hlegal)).
Defined.

(** The three durations of the specification, at the default length 4. *)
Example durations :
  last_time_signature
    (state_of (Compiler.visit romaji 1 (NoteCommand [Step "C"]) start))
  = Some ("1", "4") /\
  last_time_signature
    (state_of (Compiler.visit romaji 1 (NoteCommand [Step "C"; Dot]) start))
  = Some ("3", "8") /\
  last_time_signature
    (state_of (Compiler.visit romaji 1 (NoteCommand [Rest; Dot; Dot]) start))
  = Some ("7", "16").
Proof. repeat split; vm_compute; reflexivity. Qed.

(** ** Ties *)

Lemma endswith_spec (s t : string) :
  endswith s t = true <-> exists prefix, s = prefix +:+ t.
Proof.
  induction s as [|c s IH]; cbn [endswith].
  - destruct (String.eqb_spec EmptyString t) as [<-|Hne].
    + split; [exists EmptyString; reflexivity | reflexivity].
    + split; [discriminate|]. intros [prefix H].
      destruct prefix; [destruct (Hne H) | discriminate H].
  - destruct (String.eqb_spec (String c s) t) as [<-|Hne].
    + split; [exists EmptyString; reflexivity | reflexivity].
    + rewrite IH. split.
      * intros [prefix ->]. exists (String c prefix). reflexivity.
      * intros [prefix H]. destruct prefix as [|c' prefix].
        -- destruct (Hne H).
        -- change (String c s = String c' (prefix +:+ t)) in H.
           injection H as _ ->. eauto.
Qed.

Lemma nonempty_spec (s : string) : Compiler.nonempty s = true <-> s <> EmptyString.
Proof. destruct s; cbn; split; congruence. Qed.

(** The four nested tests of the source, as a condition on the state. *)
Lemma tie_test_spec (text : string) (self : Compiler.t) :
  Compiler.tie_test text self = true <-> tie_condition self text.
Proof.
  unfold Compiler.tie_test, tie_condition. split.
  - destruct (Compiler.__previous_notations self) as [q|]; [|discriminate].
    destruct (ET.truth q _) eqn:Htruth; [|discriminate].
    destruct (Compiler.__previous_pitch self) as [p|]; [|discriminate].
    destruct (Compiler.__previous_text self) as [previous_text|]; [|discriminate].
    destruct (Compiler.nonempty previous_text) eqn:Hne; [|discriminate].
    intros Hends. exists q, previous_text.
    repeat split; try congruence.
    + apply nonempty_spec, Hne.
    + apply endswith_spec, Hends.
  - intros (q & previous_text & -> & -> & Hp & -> & Hne & Hsuffix).
    destruct (Compiler.__previous_pitch self); [|congruence].
    apply nonempty_spec in Hne. rewrite Hne. apply endswith_spec, Hsuffix.
Qed.

(** C1: in a state of a compilation, a note that is not a rest is tied
    to the previous note exactly when the previous note had a non-empty
    notations element, a tracked pitch and a non-empty lyric of which the
    lyric of this note is a suffix.  On a tie the previous notations
    receive a tie-start as their last child and the notations of this
    note a tie-stop; otherwise the previous notations are left as they
    were and the notations of this note have no tie.  Either way this
    note becomes the previous note. *)
Theorem tie_inference (convert : string -> string) (fuel : nat)
    (children : list NoteChild) (self : Compiler.t) :
  wf self ->
  steps_legal children ->
  is_rest children = false ->
  exists self' notations,
    Compiler.visit convert (S fuel) (NoteCommand children) self
      = Compiler.Done self' /\
    Compiler.__previous_notations self' = Some notations /\
    ET.truth notations (Compiler.__elements self') = true /\
    Compiler.__previous_pitch self' <> None /\
    Compiler.__previous_text self' = Some (lyric children EmptyString) /\
    (tie_condition self (lyric children EmptyString) ->
       has_tie notations "stop" (Compiler.__elements self') = true /\
       exists q t,
         Compiler.__previous_notations self = Some q /\
         last_child q (Compiler.__elements self') = Some t /\
         Compiler.__elements self' !! t = Some (tie_element "start")) /\
    (~ tie_condition self (lyric children EmptyString) ->
       has_tie notations "stop" (Compiler.__elements self') = false /\
       forall q,
         Compiler.__previous_notations self = Some q ->
         Compiler.__elements self' !! q = Compiler.__elements self !! q).
Proof.
  intros Hwf Hlegal Hnorest.
  destruct (note_total children self Hwf (or_intror Hlegal))
    as (l & pitch & part & el_part & Hscan & Hpitch & Hpart & Hel & Hq
        & Hrest & Htext & _ & _ & _).
  rewrite Hnorest in Hrest.
  destruct (note_effect convert children self l pitch part el_part
              Hscan Hpitch Hpart Hel Hq)
    as (s' & Heq & _ & _ & _ & Hnotations & Hstart & Hsame).
  rewrite Hrest in Heq. rewrite Htext in *.
  destruct (Hnotations Hrest) as (_ & Htruth & Hstop).
  eexists. exists (length (Compiler.__elements self) + 18)%nat.
  split; [rewrite visit_note; exact Heq|].
  cbn [Compiler.__previous_notations Compiler.__previous_pitch
       Compiler.__previous_text Compiler.__elements
       Compiler.set_previous_text Compiler.set_previous_pitch
       Compiler.set_previous_notations Compiler.set_elements].
  split; [reflexivity|]. split; [exact Htruth|]. split; [discriminate|].
  split; [reflexivity|]. split.
  - intros Hcond. apply tie_test_spec in Hcond.
    split; [rewrite Hstop; exact Hcond|].
    destruct (Hstart Hrest Hcond) as (q & elq & t & Hprev & _ & Hq' & Ht).
    exists q, t. split; [exact Hprev|]. split; [|exact Ht].
    eapply last_snoc_child, Hq'.
  - intros Hcond.
    assert (Compiler.tie_test (lyric children EmptyString) self = false) as Hfalse.
    { destruct (Compiler.tie_test _ self) eqn:E; [|reflexivity].
      destruct Hcond. apply tie_test_spec, E. }
    split; [rewrite Hstop; exact Hfalse|].
    intros q Hprev. destruct (Hq q Hprev) as [Hlt Hne].
    apply Hsame; [right; exact Hfalse | exact Hne | exact Hlt].
Qed.

Lemma after_ka_done :
  Compiler.visit romaji 1 (NoteCommand [Text "ka"; Step "C"]) start
  = Compiler.Done after_ka.
Proof. vm_compute. reflexivity. Qed.

Lemma tie_inference_witness :
  wf after_ka /\
  steps_legal [Text "a"; Step "C"] /\
  is_rest [Text "a"; Step "C"] = false /\
  tie_condition after_ka "a" /\
  exists self' notations,
    Compiler.visit romaji 1 (NoteCommand [Text "a"; Step "C"]) after_ka
      = Compiler.Done self' /\
    Compiler.__previous_notations self' = Some notations /\
    has_tie notations "stop" (Compiler.__elements self') = true.
Proof.
  assert (wf after_ka) as Hwf
    by (eapply wf_visit; [exact wf_start | exact after_ka_done]).
  assert (steps_legal [Text "a"; Step "C"]) as Hlegal.
  { apply steps_legal_other; [discriminate|].
    apply steps_legal_C, steps_legal_nil. }
  assert (tie_condition after_ka "a") as Hcond.
  { exists 20%nat, "ka".
    split; [vm_compute; reflexivity|]. split; [vm_compute; reflexivity|].
    split; [vm_compute; discriminate|]. split; [vm_compute; reflexivity|].
    split; [discriminate|]. exists "k". reflexivity. }
  split; [exact Hwf|]. split; [exact Hlegal|]. split; [reflexivity|].
  split; [exact Hcond|].
  destruct (tie_inference romaji 0 [Text "a"; Step "C"] after_ka Hwf Hlegal
              eq_refl)
    as (self' & notations & Hdone & Hprev & _ & _ & _ & Htie & _).
  exists self', notations. split; [exact Hdone|]. split; [exact Hprev|].
  exact (proj1 (Htie Hcond)).
Defined.

(** C1, as stated: after [*a,C] the lyric "a" of the previous note is a
    suffix of "ka", and the previous note has its notations and a pitch,
    yet [*ka,C] is not tied to it: the document has no tie element.  And
    after [*ka,C], "ka" is not a suffix of "a", yet [*a,C] is tied. *)
Lemma tie_direction_counterexample :
  (Compiler.visit romaji 1 (NoteCommand [Text "ka"; Step "C"]) after_a
     = Compiler.Done after_a_ka /\
   reversed_tie_condition after_a "ka" /\
   any_tie (Compiler.__elements after_a_ka) = false) /\
  (Compiler.visit romaji 1 (NoteCommand [Text "a"; Step "C"]) after_ka
     = Compiler.Done after_ka_a /\
   ~ reversed_tie_condition after_ka "a" /\
   any_tie (Compiler.__elements after_ka_a) = true).
Proof.
  split; (split; [vm_compute; reflexivity|]);
    (split; [|vm_compute; reflexivity]).
  - exists 20%nat, "a".
    split; [vm_compute; reflexivity|]. split; [vm_compute; reflexivity|].
    split; [vm_compute; discriminate|]. split; [vm_compute; reflexivity|].
    split; [discriminate|]. exists "k". reflexivity.
  - intros (q & previous_text & _ & _ & _ & Htext & _ & prefix & Hsuffix).
    vm_compute in Htext. injection Htext as <-.
    destruct prefix as [|c [|c' prefix]]; discriminate Hsuffix.
Qed.

(** ** Rests *)

(** C3: in a state of a compilation a rest command returns with the
    previous notations and the previous lyric text reset to empty, but
    with the previous pitch set to the pitch object of the rest itself,
    not to empty. *)
Theorem rest_leaves_a_pitch (convert : string -> string) (fuel : nat)
    (children : list NoteChild) (self : Compiler.t) :
  wf self ->
  is_rest children = true ->
  exists self',
    Compiler.visit convert (S fuel) (NoteCommand children) self
      = Compiler.Done self' /\
    Compiler.__previous_notations self' = None /\
    Compiler.__previous_text self' = None /\
    Compiler.__previous_pitch self' <> None.
Proof.
  intros Hwf Hrest.
  destruct (note_total children self Hwf (or_introl Hrest))
    as (l & pitch & part & el_part & Hscan & Hpitch & Hpart & Hel & Hq
        & Hr & _).
  rewrite Hrest in Hr.
  destruct (note_effect convert children self l pitch part el_part
              Hscan Hpitch Hpart Hel Hq) as (s' & Heq & _).
  rewrite Hr in Heq.
  eexists. split; [rewrite visit_note; exact Heq|].
  repeat split. discriminate.
Qed.

Lemma rest_leaves_a_pitch_witness :
  wf start /\ is_rest [Rest] = true /\
  exists self',
    Compiler.visit romaji 1 (NoteCommand [Rest]) start = Compiler.Done self' /\
    Compiler.__previous_notations self' = None /\
    Compiler.__previous_text self' = None /\
    Compiler.__previous_pitch self' <> None.
Proof.
  split; [exact wf_start|]. split; [reflexivity|].
  exact (rest_leaves_a_pitch romaji 0 [Rest] start wf_start eq_refl).
Defined.

(** The rest [R] in a new compiler: the previous pitch is the pitch
    [Pitch(0)] that the command starts from. *)
Example rest_example :
  Compiler.__previous_pitch
    (state_of (Compiler.visit romaji 1 (NoteCommand [Rest]) start))
  = Some (Pitch.mk "C" 0 (-1)).
Proof. vm_compute. reflexivity. Qed.

(** ** The octave of the channel and the octave of a pitch *)

Lemma add_value_result (key : Z) (q p : Pitch.t) :
  Pitch.add_value key q = Return p -> pitch_ok p.
Proof.
  unfold Pitch.add_value. destruct (Pitch.value q) as [v|]; [|discriminate].
  cbn [mbind result_bind].
  destruct (set_value_ok (v + key) q) as (p' & H' & Hok). rewrite H'.
  intros [= <-]. exact Hok.
Qed.

Lemma resolve_result (l : Compiler.locals) (self : Compiler.t) (p : Pitch.t) :
  Compiler.resolve l self = Return p -> pitch_ok p.
Proof.
  unfold Compiler.resolve.
  destruct (if Compiler.nonempty (Compiler.step_ l) then _ else _) as [q|];
    [|discriminate].
  cbn [mbind result_bind]. apply add_value_result.
Qed.

(** The references of a state of a compilation point into its store. *)
Lemma wf_refs (self : Compiler.t) (part : nat) :
  wf self ->
  getitem (Compiler.__parts self) (Compiler.__channel self) = Return (Some part) ->
  exists el_part,
    Compiler.__elements self !! part = Some el_part /\
    forall q, Compiler.__previous_notations self = Some q ->
      (q < length (Compiler.__elements self))%nat /\ q <> part.
Proof.
  intros [Hparts _ Hnot] Hpart.
  destruct (getitem_lookup _ _ _ Hpart) as [k Hk].
  destruct (Hparts k part Hk) as (el_part & Hel & Htag).
  exists el_part. split; [exact Hel|].
  intros q H. destruct (Hnot q H) as (elq & Helq & Htagq). split.
  - eapply lookup_lt_Some, Helq.
  - intros ->. rewrite Hel in Helq. injection Helq as <-.
    rewrite Htag in Htagq. discriminate.
Qed.

(** C10: the octave of the channel is not clamped.  An octave-up command
    adds one to it and an octave-down command subtracts one (the other
    way round once the octave-reverse flag is set), whatever its value.
    What lies in [-1,9] is the octave of the pitch of every note or rest
    that is compiled. *)
Theorem octave_steps_and_pitch_range (convert : string -> string)
    (fuel : nat) (self : Compiler.t) :
  wf self ->
  Compiler.visit convert (S fuel) OctaveUpCommand self
    = Compiler.Done
        (Compiler.set_octave
           (if Compiler.__octave_reverse self
            then Compiler.__octave self - 1 else Compiler.__octave self + 1)
           self) /\
  Compiler.visit convert (S fuel) OctaveDownCommand self
    = Compiler.Done
        (Compiler.set_octave
           (if Compiler.__octave_reverse self
            then Compiler.__octave self + 1 else Compiler.__octave self - 1)
           self) /\
  (forall children self',
     Compiler.visit convert (S fuel) (NoteCommand children) self
       = Compiler.Done self' ->
     exists p, Compiler.__previous_pitch self' = Some p /\
               -1 <= Pitch._octave p <= 9).
Proof.
  intros Hwf. split; [|split].
  - cbn [Compiler.visit]. unfold Compiler.octave_up_command.
    destruct (Compiler.__octave_reverse self); reflexivity.
  - cbn [Compiler.visit]. unfold Compiler.octave_down_command.
    destruct (Compiler.__octave_reverse self); reflexivity.
  - intros children self' Hdone. rewrite visit_note in Hdone.
    destruct (note_done_inv _ _ _ _ Hdone)
      as (l & pitch & part & Hscan & Hpitch & Hpart).
    destruct (wf_refs self part Hwf Hpart) as (el_part & Hel & Hq).
    destruct (note_effect convert children self l pitch part el_part
                Hscan Hpitch Hpart Hel Hq) as (s' & Heq & _).
    rewrite Heq in Hdone. injection Hdone as <-.
    exists pitch. split; [reflexivity|].
    assert (pitch_ok pitch) as [_ Hrange]; [|exact Hrange].
    destruct (scan_fields children
                (Compiler.mkLocals false EmptyString EmptyString 0 (Pitch.mk "C" 0 (-1))
                   (Compiler.__length self) 0 false) initial_pitch_ok)
      as (l' & Hscan' & _ & _ & _ & _ & Hok & _).
    rewrite Hscan in Hscan'. injection Hscan' as <-.
    destruct (Compiler.rest_ l); cbn [negb] in Hpitch.
    + injection Hpitch as <-. exact Hok.
    + eapply resolve_result, Hpitch.
Qed.

Lemma octave_steps_and_pitch_range_witness :
  wf start /\
  Compiler.visit romaji 1 OctaveUpCommand start
    = Compiler.Done (Compiler.set_octave 5 start) /\
  Compiler.visit romaji 1 OctaveDownCommand start
    = Compiler.Done (Compiler.set_octave 3 start) /\
  exists p, Compiler.__previous_pitch after_ka = Some p /\
            -1 <= Pitch._octave p <= 9.
Proof.
  split; [exact wf_start|].
  destruct (octave_steps_and_pitch_range romaji 0 start wf_start)
    as (Hup & Hdown & Hnote).
  split; [exact Hup|]. split; [exact Hdown|].
  exact (Hnote _ _ after_ka_done).
Defined.

(** ** Pitch: values out of range *)

(** Setting a value and reading it back: the value modulo 12 below 0
    (the octave is clamped to -1), the value itself up to 127, and above
    that the pitch class in octave 9, cut at 127. *)
Lemma set_value_then_value (v : Z) (p : Pitch.t) :
  (q ← Pitch.set_value v p; Pitch.value q)
  = Return (if v <? 0 then v mod 12
            else if v <=? 127 then v
            else Z.min (120 + v mod 12) 127).
Proof.
  destruct (set_value_spec v p)
    as (step & alter & o & base & H & Ho & Hb & Hsum & Ha).
  rewrite H. cbn [mbind result_bind]. unfold Pitch.value.
  cbn [Pitch._step Pitch._alter Pitch._octave].
  rewrite Ho. cbn [mbind result_bind]. rewrite Hb. cbn [mbind result_bind].
  f_equal.
  pose proof (Z.mod_pos_bound v 12 ltac:(lia)) as Hmod.
  pose proof (Z.div_mod v 12 ltac:(lia)) as Hdm.
  destruct (Z.ltb_spec v 0); [|destruct (Z.leb_spec v 127)]; lia.
Qed.

(** For every integer [v] and every pitch, the value setter followed by
    the value getter returns [v mod 12] when [v < 0], [v] when
    [0 <= v <= 127] and [min (120 + v mod 12) 127] when [v > 127]: no
    integer makes the setter or the getter raise. *)
Theorem value_after_set_value (v : Z) (p : Pitch.t) :
  (q ← Pitch.set_value v p; Pitch.value q)
  = Return (if v <? 0 then v mod 12
            else if v <=? 127 then v
            else Z.min (120 + v mod 12) 127).
Proof. exact (set_value_then_value v p). Qed.

(** [pitch.value += key] on a pitch whose value reads [v]: the value
    then reads [v + key] brought into the MIDI range as above, whatever
    the key. *)
Theorem add_value_reads (key v : Z) (p : Pitch.t) :
  Pitch.value p = Return v ->
  (q ← Pitch.add_value key p; Pitch.value q)
  = Return (if v + key <? 0 then (v + key) mod 12
            else if v + key <=? 127 then v + key
            else Z.min (120 + (v + key) mod 12) 127).
Proof.
  intros Hv. unfold Pitch.add_value. rewrite Hv. cbn [mbind result_bind].
  apply set_value_then_value.
Qed.

Lemma add_value_reads_witness :
  Pitch.value (Pitch.mk "C" 0 (-1)) = Return 0 /\
  (q ← Pitch.add_value (-1) (Pitch.mk "C" 0 (-1)); Pitch.value q) = Return 11.
Proof.
  split; [reflexivity|].
  exact (add_value_reads (-1) 0 (Pitch.mk "C" 0 (-1)) eq_refl).
Defined.

(** The alteration setter stores a value of [-12, 11] congruent to its
    argument modulo 12, and storing the stored value again changes
    nothing. *)
Theorem set_alter_range_idempotent (a : Z) (p : Pitch.t) :
  -12 <= Pitch._alter (Pitch.set_alter a p) <= 11 /\
  (Pitch._alter (Pitch.set_alter a p) - a) mod 12 = 0 /\
  Pitch.set_alter (Pitch._alter (Pitch.set_alter a p)) (Pitch.set_alter a p)
  = Pitch.set_alter a p.
Proof.
  unfold Pitch.set_alter. cbn [Pitch._alter Pitch._step Pitch._octave].
  pose proof (Z.mod_pos_bound a 12 ltac:(lia)) as Hmod.
  destruct (Z.ltb_spec a 0) as [Hneg|Hpos].
  - split; [lia|]. split.
    + Z.div_mod_to_equations; lia.
    + f_equal. destruct (Z.ltb_spec (a mod 12 - 12) 0); Z.div_mod_to_equations; lia.
  - split; [lia|]. split.
    + Z.div_mod_to_equations; lia.
    + f_equal. destruct (Z.ltb_spec (a mod 12) 0); Z.div_mod_to_equations; lia.
Qed.

(** ** Channel initialisation *)

Lemma alter_snoc {A : Type} (f : A -> A) (l : list A) (x : A) :
  alter f (length l) (l ++ [x]) = l ++ [f x].
Proof.
  rewrite <- (Nat.add_0_r (length l)). rewrite alter_app_r. reflexivity.
Qed.

(** [__init_channel] with a channel of [0, 15]: it returns, having
    allocated a [score-partwise] element with one [part] child, stored
    the two at the channel's index of the scores and the parts lists,
    made the channel the active one and reset key, length, octave and
    tempo to their initial values; macros, the octave-reverse flag and
    the tie-tracking attributes are as before. *)
Theorem init_channel_valid (channel : Z) (local : bool) (self : Compiler.t) :
  0 <= channel < 16 ->
  length (Compiler.__scores self) = 16%nat ->
  length (Compiler.__parts self) = 16%nat ->
  let n := length (Compiler.__elements self) in
  exists self',
    Compiler.init_channel channel local self = Compiler.Done self' /\
    Compiler.__elements self'
      = Compiler.__elements self
        ++ [ET.mkElement "score-partwise" [] None [S n];
            ET.mkElement "part" [] None []] /\
    Compiler.__scores self'
      = <[Z.to_nat channel := Some n]> (Compiler.__scores self) /\
    Compiler.__parts self'
      = <[Z.to_nat channel := Some (S n)]> (Compiler.__parts self) /\
    Compiler.__channel self' = channel /\
    Compiler.__local self' = local /\
    Compiler.__key self' = Compiler.__initial_key self /\
    Compiler.__length self' = Compiler.__initial_length self /\
    Compiler.__octave self' = Compiler.__initial_octave self /\
    Compiler.__tempo self' = Compiler.__initial_tempo self /\
    Compiler.__macros self' = Compiler.__macros self /\
    Compiler.__octave_reverse self' = Compiler.__octave_reverse self /\
    Compiler.__previous_notations self' = Compiler.__previous_notations self /\
    Compiler.__previous_pitch self' = Compiler.__previous_pitch self /\
    Compiler.__previous_text self' = Compiler.__previous_text self.
Proof.
  intros Hc Hs Hp n.
  unfold Compiler.init_channel, ET.new, ET.SubElement.
  cbn [Compiler.__elements Compiler.__scores Compiler.__parts Compiler.__channel
       Compiler.set_channel Compiler.set_local Compiler.set_elements
       Compiler.set_scores].
  unfold Compiler.setitem. rewrite Hs, Hp.
  destruct (Z.ltb_spec channel 0) as [?|_]; [lia|].
  destruct (Z.ltb_spec channel 0) as [?|_]; [lia|].
  destruct (Z.leb_spec (Z.of_nat 16) channel) as [?|_]; [lia|].
  cbn [orb]. eexists. split; [reflexivity|].
  cbn [Compiler.__elements Compiler.__scores Compiler.__parts Compiler.__channel
       Compiler.__local Compiler.__key Compiler.__length Compiler.__octave
       Compiler.__tempo Compiler.__macros Compiler.__octave_reverse
       Compiler.__previous_notations Compiler.__previous_pitch
       Compiler.__previous_text Compiler.__initial_key
       Compiler.__initial_length Compiler.__initial_octave
       Compiler.__initial_tempo
       Compiler.set_channel Compiler.set_local Compiler.set_elements
       Compiler.set_scores Compiler.set_parts Compiler.set_key
       Compiler.set_length Compiler.set_octave Compiler.set_tempo].
  split.
  - rewrite alter_snoc, length_app, <- app_assoc. subst n.
    cbn [length app ET.append ET.tag ET.attrib ET.text ET.children].
    rewrite Nat.add_1_r. reflexivity.
  - subst n. rewrite length_app. cbn [length].
    rewrite Nat.add_1_r. repeat split.
Qed.

Lemma init_channel_valid_witness :
  0 <= 3 < 16 /\
  length (Compiler.__scores Compiler.blank) = 16%nat /\
  length (Compiler.__parts Compiler.blank) = 16%nat /\
  exists self',
    Compiler.init_channel 3 true Compiler.blank = Compiler.Done self' /\
    Compiler.__scores self' !! 3%nat = Some (Some 0%nat) /\
    Compiler.__parts self' !! 3%nat = Some (Some 1%nat) /\
    Compiler.__octave self' = 4.
Proof.
  split; [lia|]. split; [reflexivity|]. split; [reflexivity|].
  destruct (init_channel_valid 3 true Compiler.blank ltac:(lia) eq_refl eq_refl)
    as (self' & Hdone & _ & Hs & Hp & _ & _ & _ & _ & Ho & _).
  exists self'. split; [exact Hdone|].
  rewrite Hs, Hp, Ho. repeat split.
Defined.

(** [__init_channel] with a channel of 16 or more raises [IndexError]
    at the assignment to the scores list, which with the parts list is
    left as it was. *)
Theorem init_channel_out_of_range (channel : Z) (local : bool)
    (self : Compiler.t) :
  16 <= channel ->
  length (Compiler.__scores self) = 16%nat ->
  exists self',
    Compiler.init_channel channel local self
      = Compiler.Raised IndexError self' /\
    Compiler.__scores self' = Compiler.__scores self /\
    Compiler.__parts self' = Compiler.__parts self.
Proof.
  intros Hc Hs.
  unfold Compiler.init_channel, ET.new, ET.SubElement.
  cbn [Compiler.__elements Compiler.__scores Compiler.__parts Compiler.__channel
       Compiler.set_channel Compiler.set_local Compiler.set_elements
       Compiler.set_scores].
  unfold Compiler.setitem. rewrite Hs.
  destruct (Z.ltb_spec channel 0) as [?|_]; [lia|].
  destruct (Z.ltb_spec channel 0) as [?|_]; [lia|].
  destruct (Z.leb_spec (Z.of_nat 16) channel) as [_|?]; [|lia].
  cbn [orb]. eexists. split; [reflexivity|]. split; reflexivity.
Qed.

Lemma init_channel_out_of_range_witness :
  16 <= 16 /\
  length (Compiler.__scores Compiler.blank) = 16%nat /\
  exists self',
    Compiler.init_channel 16 true Compiler.blank
      = Compiler.Raised IndexError self'.
Proof.
  split; [lia|]. split; [reflexivity|].
  destruct (init_channel_out_of_range 16 true Compiler.blank ltac:(lia) eq_refl)
    as (self' & Hraise & _).
  exists self'. exact Hraise.
Defined.

(** ** note_command: what it leaves alone *)

Lemma note_command_ends (convert : string -> string)
    (children : list NoteChild) (self : Compiler.t) :
  Compiler.note_command convert children self <> Compiler.OutOfFuel /\
  same_settings self (state_of (Compiler.note_command convert children self)).
Proof.
  unfold Compiler.note_command.
  destruct (_ ← Pitch.init 0; _) as [l|e]; [|split; [discriminate|repeat split]].
  destruct (if negb (Compiler.rest_ l) then _ else _) as [pitch|e];
    [|split; [discriminate|repeat split]].
  cbv zeta.
  set (self1 := if negb (Compiler.rest_ l) then _ else self).
  assert (same_settings self self1) as H1
    by (subst self1; destruct (negb _); repeat split).
  clearbody self1.
  destruct (getitem _ _) as [[part|]|e];
    [|split; [discriminate|exact H1]..].
  destruct (Compiler.emit_measure _ _ _ _ _) as [note s].
  assert (forall s' q t,
            same_settings self
              (Compiler.set_previous_text t
                 (Compiler.set_previous_pitch q
                    (Compiler.set_previous_notations None
                       (Compiler.set_elements s' self1))))) as Hrest
    by (intros; exact H1).
  assert (forall s' q,
            same_settings self
              (Compiler.set_previous_notations q
                 (Compiler.set_elements s' self1))) as Hnote
    by (intros; exact H1).
  assert (forall s', same_settings self (Compiler.set_elements s' self1))
    as Hraise by (intros; exact H1).
  destruct (negb (Compiler.rest_ l)).
  - unfold Compiler.emit_pitched.
    repeat match goal with
           | |- context [let '(_, _) := ET.SubElement ?a ?b ?c ?d in _] =>
               destruct (ET.SubElement a b c d) as [? ?]
           end.
    match goal with
    | |- context [Compiler.set_elements ?s2 self1] => generalize s2
    end.
    intros s2.
    destruct (Compiler.tie_test _ _);
      [destruct (Compiler.__previous_notations self1) as [q|];
       [destruct (ET.SubElement q _ _ _) as [? s3];
        destruct (ET.SubElement _ _ _ s3) as [? s4]|]|];
      (split; [discriminate|]); cbn [state_of]; auto.
  - destruct (ET.SubElement note _ _ _) as [? s2].
    split; [discriminate|]. cbn [state_of]. apply Hrest.
Qed.

(** Whether it returns or raises, a note or rest command leaves the
    scores and parts lists, the channel, the key, length, octave and
    tempo, the macro table and the flags as they were. *)
Theorem note_command_frame (convert : string -> string)
    (children : list NoteChild) (self : Compiler.t) :
  same_settings self (state_of (Compiler.note_command convert children self)).
Proof. apply note_command_ends. Qed.

(** ** Invariants of the interpreter *)

(** A relation [D] between the states before and after a command that
    returns, and a relation [E] for a command that raises, hold of every
    tree when they hold of each elementary change of state. *)
Section invariant.

Import Compiler.
Variable convert : string -> string.
Variables D E : t -> t -> Prop.

Hypothesis D_refl : forall self, D self self.
Hypothesis D_trans : forall a b c, D a b -> D b c -> D a c.
Hypothesis E_refl : forall self, E self self.
Hypothesis D_E : forall a b c, D a b -> E b c -> E a c.
Hypothesis note_ends : forall children self,
  ends D E self (note_command convert children self).
Hypothesis D_key : forall v self, D self (set_key v self).
Hypothesis D_global_key : forall v self, D self (set_global_key v self).
Hypothesis D_length : forall v self, D self (set_length v self).
Hypothesis D_octave : forall v self, D self (set_octave v self).
Hypothesis D_tempo : forall v self, D self (set_tempo v self).
Hypothesis D_global_tempo : forall v self, D self (set_global_tempo v self).
Hypothesis D_reverse : forall self, D self (set_octave_reverse true self).
Hypothesis D_define : forall name content self,
  __macros self !! name = None ->
  D self (set_macros (<[name := content]> (__macros self)) self).
Hypothesis E_channel : forall channel self,
  E self (set_local true (set_channel channel self)).

Section step.

Variable visit : Tree -> t -> outcome.
Hypothesis visit_ends : forall tree self, ends D E self (visit tree self).

Lemma default_ends children self : ends D E self (default visit children self).
Proof.
  revert self. induction children as [|tree children IH]; intros self;
    cbn [default]; [apply D_refl|].
  pose proof (visit_ends tree self) as H.
  destruct (visit tree self) as [self1|e self1|]; cbn [ends] in *; auto.
  specialize (IH self1).
  destruct (default visit children self1); cbn [ends] in *; eauto.
Qed.

Lemma loop_ends content count self : ends D E self (loop visit content count self).
Proof.
  revert self. induction count as [|count IH]; intros self;
    cbn [loop]; [apply D_refl|].
  pose proof (visit_ends content self) as H.
  destruct (visit content self) as [self1|e self1|]; cbn [ends] in *; auto.
  specialize (IH (set_octave (__octave self) self1)).
  destruct (loop visit content count _); cbn [ends] in *; eauto.
Qed.

Lemma call_ends name self : ends D E self (call_command visit name self).
Proof.
  unfold call_command.
  destruct (__macros self !! upper name) as [content|]; [|apply E_refl].
  pose proof (visit_ends content self) as H.
  destruct (visit content self) as [self1|e self1|]; cbn [ends] in *; eauto.
Qed.

End step.

Lemma visit_ends fuel tree self : ends D E self (visit convert fuel tree self).
Proof.
  revert tree self. induction fuel as [|fuel IH]; intros tree self;
    [exact I|].
  destruct tree; cbn [visit].
  - apply default_ends, IH.
  - apply default_ends, IH.
  - apply E_channel.
  - apply call_ends, IH.
  - unfold define_command. destruct (__macros self !! upper name) eqn:Hm;
      cbn [ends]; auto.
  - apply note_ends.
  - unfold key_command. destruct (negb _); cbn [ends]; eauto.
  - apply D_length.
  - apply loop_ends, IH.
  - apply D_octave.
  - unfold octave_up_command. destruct (__octave_reverse self); apply D_octave.
  - unfold octave_down_command. destruct (__octave_reverse self); apply D_octave.
  - apply D_reverse.
  - unfold tempo_command. destruct (negb _); cbn [ends]; eauto.
  - apply D_refl.
Qed.

End invariant.

(** A relation that holds between states with the same settings holds
    of the outcome of a note command. *)
Lemma note_ends_settings (convert : string -> string)
    (D E : Compiler.t -> Compiler.t -> Prop) :
  (forall self self', same_settings self self' -> D self self') ->
  (forall self self', same_settings self self' -> E self self') ->
  forall children self,
    ends D E self (Compiler.note_command convert children self).
Proof.
  intros HD HE children self.
  pose proof (note_command_ends convert children self) as [_ Hset].
  destruct (Compiler.note_command convert children self);
    cbn [ends state_of] in *; auto.
Qed.

(** No command removes or replaces a macro. *)
Lemma visit_macros_grow (convert : string -> string) (fuel : nat)
    (tree : Tree) (self : Compiler.t) :
  ends macros_grow macros_grow self (Compiler.visit convert fuel tree self).
Proof.
  assert (forall a b, same_settings a b -> macros_grow a b) as Hset.
  { intros a b (_ & _ & _ & _ & _ & _ & _ & _ & Hm & _) k v H.
    rewrite Hm. exact H. }
  apply visit_ends; unfold macros_grow; auto.
  - apply note_ends_settings; exact Hset.
  - intros k v s Hfree k' v' H.
    cbn [Compiler.__macros Compiler.set_macros].
    rewrite lookup_insert_ne; [exact H|]. intros ->. congruence.
Qed.

(** The macro table is write-once: a macro defined when a tree is
    entered is defined, with the same body, when the interpretation of
    the tree returns or raises. *)
Theorem macros_write_once (convert : string -> string) (fuel : nat)
    (tree : Tree) (self self' : Compiler.t) (e : exn)
    (name : string) (content : Tree) :
  Compiler.visit convert fuel tree self = Compiler.Done self' \/
  Compiler.visit convert fuel tree self = Compiler.Raised e self' ->
  Compiler.__macros self !! name = Some content ->
  Compiler.__macros self' !! name = Some content.
Proof.
  pose proof (visit_macros_grow convert fuel tree self) as H.
  intros [Hd|Hr] Hm; [rewrite Hd in H | rewrite Hr in H]; exact (H _ _ Hm).
Qed.

Lemma macros_write_once_witness :
  (Compiler.visit romaji 1 (DefineCommand "n" (Content [])) sample_defined
     = Compiler.Done
         (state_of (Compiler.visit romaji 1 (DefineCommand "n" (Content []))
                      sample_defined)) \/
   Compiler.visit romaji 1 (DefineCommand "n" (Content [])) sample_defined
     = Compiler.Raised TypeError
         (state_of (Compiler.visit romaji 1 (DefineCommand "n" (Content []))
                      sample_defined))) /\
  Compiler.__macros sample_defined !! "M" = Some sample_body /\
  Compiler.__macros
    (state_of (Compiler.visit romaji 1 (DefineCommand "n" (Content []))
                 sample_defined)) !! "M" = Some sample_body.
Proof.
  assert (Compiler.visit romaji 1 (DefineCommand "n" (Content [])) sample_defined
          = Compiler.Done
              (state_of (Compiler.visit romaji 1
                           (DefineCommand "n" (Content [])) sample_defined)))
    as Hdone by (vm_compute; reflexivity).
  assert (Compiler.__macros sample_defined !! "M" = Some sample_body) as Hm
    by (vm_compute; reflexivity).
  split; [left; exact Hdone|]. split; [exact Hm|].
  exact (macros_write_once romaji 1 _ _ _ TypeError "M" sample_body
           (or_introl Hdone) Hm).
Defined.

(** The octave-reverse flag is never cleared: set when a tree is
    entered, it is set when the interpretation of the tree returns or
    raises. *)
Theorem octave_reverse_sticks (convert : string -> string) (fuel : nat)
    (tree : Tree) (self self' : Compiler.t) (e : exn) :
  Compiler.visit convert fuel tree self = Compiler.Done self' \/
  Compiler.visit convert fuel tree self = Compiler.Raised e self' ->
  Compiler.__octave_reverse self = true ->
  Compiler.__octave_reverse self' = true.
Proof.
  set (R := fun a b : Compiler.t =>
              Compiler.__octave_reverse a = true ->
              Compiler.__octave_reverse b = true).
  assert (forall a b, same_settings a b -> R a b) as Hset.
  { intros a b (_ & _ & _ & _ & _ & _ & _ & _ & _ & Hr & _) H.
    rewrite Hr. exact H. }
  assert (ends R R self (Compiler.visit convert fuel tree self)) as H.
  { apply visit_ends; subst R; cbn beta; auto.
    apply note_ends_settings; exact Hset. }
  intros [Hd|Hr] Hm; [rewrite Hd in H | rewrite Hr in H]; exact (H Hm).
Qed.

Lemma octave_reverse_sticks_witness :
  (Compiler.visit romaji 2
     (Content [OctaveUpCommand; OctaveReverseCommand; NoteCommand [Step "C"]])
     (Compiler.set_octave_reverse true start)
   = Compiler.Done
       (state_of
          (Compiler.visit romaji 2
             (Content [OctaveUpCommand; OctaveReverseCommand;
                       NoteCommand [Step "C"]])
             (Compiler.set_octave_reverse true start))) \/
   Compiler.visit romaji 2
     (Content [OctaveUpCommand; OctaveReverseCommand; NoteCommand [Step "C"]])
     (Compiler.set_octave_reverse true start)
   = Compiler.Raised TypeError
       (state_of
          (Compiler.visit romaji 2
             (Content [OctaveUpCommand; OctaveReverseCommand;
                       NoteCommand [Step "C"]])
             (Compiler.set_octave_reverse true start)))) /\
  Compiler.__octave_reverse (Compiler.set_octave_reverse true start) = true /\
  Compiler.__octave_reverse
    (state_of
       (Compiler.visit romaji 2
          (Content [OctaveUpCommand; OctaveReverseCommand;
                    NoteCommand [Step "C"]])
          (Compiler.set_octave_reverse true start))) = true.
Proof.
  assert (Compiler.visit romaji 2
            (Content [OctaveUpCommand; OctaveReverseCommand;
                      NoteCommand [Step "C"]])
            (Compiler.set_octave_reverse true start)
          = Compiler.Done
              (state_of
                 (Compiler.visit romaji 2
                    (Content [OctaveUpCommand; OctaveReverseCommand;
                              NoteCommand [Step "C"]])
                    (Compiler.set_octave_reverse true start))))
    as Hdone by (vm_compute; reflexivity).
  split; [left; exact Hdone|]. split; [reflexivity|].
  exact (octave_reverse_sticks romaji 2 _ _ _ TypeError (or_introl Hdone)
           eq_refl).
Defined.

(** A command that returns leaves the scores and parts lists and the
    active channel as they were: the one command that assigns the
    channel raises. *)
Lemma visit_same_channel (convert : string -> string) (fuel : nat)
    (tree : Tree) (self : Compiler.t) :
  ends same_channel (fun _ _ => True) self
    (Compiler.visit convert fuel tree self).
Proof.
  assert (forall a b, same_settings a b -> same_channel a b) as Hset.
  { intros a b (H1 & H2 & H3 & H4 & _). repeat split; assumption. }
  apply visit_ends; unfold same_channel; auto.
  - intros a b c (H1 & H2 & H3 & H4) (H1' & H2' & H3' & H4').
    repeat split; congruence.
  - apply note_ends_settings; [exact Hset | auto].
Qed.

Lemma compile_same_channel (convert : string -> string) (fuel : nat)
    (tree : Tree) (self : Compiler.t) :
  Compiler.compile convert fuel tree = Compiler.Done self ->
  same_channel start self.
Proof.
  unfold Compiler.compile. change Compiler.new with (Compiler.Done start).
  intros Hdone.
  pose proof (visit_same_channel convert fuel tree start) as H.
  rewrite Hdone in H. exact H.
Qed.

(** A compilation that returns has one score: the scores list holds the
    document of channel 0, element 0 of the store, and fifteen [None];
    the parts list holds its part; the active channel is 0 and global. *)
Theorem compile_one_score (convert : string -> string) (fuel : nat)
    (tree : Tree) (self : Compiler.t) :
  Compiler.compile convert fuel tree = Compiler.Done self ->
  Compiler.__scores self = Some 0%nat :: replicate 15 None /\
  Compiler.__parts self = Some 1%nat :: replicate 15 None /\
  Compiler.__channel self = 0 /\
  Compiler.__local self = false.
Proof.
  intros Hdone.
  destruct (compile_same_channel _ _ _ _ Hdone) as (H1 & H2 & H3 & H4).
  rewrite H1, H2, H3, H4. repeat split.
Qed.

Lemma compile_one_score_witness :
  Compiler.compile romaji 3 (Root [Content [NoteCommand [Step "C"]]])
    = Compiler.Done
        (state_of
           (Compiler.compile romaji 3 (Root [Content [NoteCommand [Step "C"]]]))) /\
  Compiler.__scores
    (state_of
       (Compiler.compile romaji 3 (Root [Content [NoteCommand [Step "C"]]])))
  = Some 0%nat :: replicate 15 None.
Proof.
  assert (Compiler.compile romaji 3 (Root [Content [NoteCommand [Step "C"]]])
          = Compiler.Done
              (state_of
                 (Compiler.compile romaji 3
                    (Root [Content [NoteCommand [Step "C"]]]))))
    as Hdone by (vm_compute; reflexivity).
  split; [exact Hdone|].
  exact (proj1 (compile_one_score romaji 3 _ _ Hdone)).
Defined.

(** ** Sequences, loops and macros *)

(** [__default__] on a concatenation. *)
Lemma default_app (visit : Tree -> Compiler.t -> Compiler.outcome)
    (first rest : list Tree) (self : Compiler.t) :
  Compiler.default visit (first ++ rest) self
  = match Compiler.default visit first self with
    | Compiler.Done self' => Compiler.default visit rest self'
    | r => r
    end.
Proof.
  revert self. induction first as [|tree first IH]; intros self;
    cbn [app Compiler.default]; [reflexivity|].
  destruct (visit tree self); [apply IH | reflexivity | reflexivity].
Qed.

(** A sequence of commands is interpreted as its first part followed,
    when that returns, by the rest from the state it left; when the
    first part raises, the sequence raises there. *)
Theorem content_app (convert : string -> string) (fuel : nat)
    (first rest : list Tree) (self : Compiler.t) :
  Compiler.visit convert (S fuel) (Content (first ++ rest)) self
  = match Compiler.visit convert (S fuel) (Content first) self with
    | Compiler.Done self' =>
        Compiler.visit convert (S fuel) (Content rest) self'
    | r => r
    end.
Proof. rewrite !visit_content. apply default_app. Qed.

(** A loop of two or more rounds whose body starts with a macro
    definition, and returns when run once, raises [DuplicateMacroError]
    with the name as written at the start of the second round, in the
    state the first round left, octave restored. *)
Theorem loop_defines_twice (convert : string -> string) (fuel : nat)
    (name : string) (content : Tree) (rest : list Tree) (n : nat)
    (self body_end : Compiler.t) :
  Compiler.visit convert fuel (Content (DefineCommand name content :: rest)) self
    = Compiler.Done body_end ->
  Compiler.visit convert (S fuel)
    (LoopCommand (Content (DefineCommand name content :: rest)) (S (S n))) self
  = Compiler.Raised (DuplicateMacroError name)
      (Compiler.set_octave (Compiler.__octave self) body_end).
Proof.
  intros Hbody. rewrite visit_loop. cbn [Compiler.loop]. rewrite Hbody.
  destruct fuel as [|fuel]; [discriminate|].
  rewrite visit_content in *. cbn [Compiler.default] in *.
  destruct fuel as [|fuel]; [discriminate|].
  rewrite visit_define in *. unfold Compiler.define_command in *.
  destruct (Compiler.__macros self !! upper name) eqn:Hfree; [discriminate|].
  assert (Compiler.__macros body_end !! upper name = Some content) as Hdef.
  { assert (Compiler.visit convert (S (S fuel)) (Content rest)
              (Compiler.set_macros
                 (<[upper name := content]> (Compiler.__macros self)) self)
            = Compiler.Done body_end) as Hrest
      by (rewrite visit_content; exact Hbody).
    pose proof (visit_macros_grow convert (S (S fuel)) (Content rest)
                  (Compiler.set_macros
                     (<[upper name := content]> (Compiler.__macros self))
                     self)) as Hgrow.
    rewrite Hrest in Hgrow. apply Hgrow.
    cbn [Compiler.__macros Compiler.set_macros]. apply lookup_insert_eq. }
  cbn [Compiler.__macros Compiler.set_octave]. rewrite Hdef. reflexivity.
Qed.

Lemma loop_defines_twice_witness :
  Compiler.visit romaji 2 sample_defining_body start
    = Compiler.Done (state_of (Compiler.visit romaji 2 sample_defining_body start)) /\
  Compiler.visit romaji 3 (LoopCommand sample_defining_body 2) start
    = Compiler.Raised (DuplicateMacroError "m")
        (Compiler.set_octave (Compiler.__octave start)
           (state_of (Compiler.visit romaji 2 sample_defining_body start))).
Proof.
  assert (Compiler.visit romaji 2 sample_defining_body start
          = Compiler.Done
              (state_of (Compiler.visit romaji 2 sample_defining_body start)))
    as Hbody by (vm_compute; reflexivity).
  split; [exact Hbody|].
  exact (loop_defines_twice romaji 2 "m" (Content []) [] 0 start _ Hbody).
Defined.

(** A call of a macro whose body starts with a call of the same macro,
    under any spelling, neither returns nor raises one of the
    compiler's errors: whatever the fuel, the interpretation is still
    descending when the fuel is spent. *)
Theorem recursive_macro_never_returns (convert : string -> string)
    (name name' : string) (rest : list Tree) (self : Compiler.t) :
  Compiler.__macros self !! upper name
    = Some (Content (CallCommand name' :: rest)) ->
  upper name' = upper name ->
  forall fuel,
    Compiler.visit convert fuel (CallCommand name) self = Compiler.OutOfFuel.
Proof.
  intros Hdef Hsame fuel. revert name name' Hdef Hsame.
  induction fuel as [fuel IH] using lt_wf_ind. intros name name' Hdef Hsame.
  destruct fuel as [|fuel]; [reflexivity|].
  rewrite visit_call. unfold Compiler.call_command. rewrite Hdef.
  destruct fuel as [|fuel]; [reflexivity|].
  rewrite visit_content. cbn [Compiler.default].
  rewrite (IH fuel ltac:(lia) name' name'); [reflexivity| |reflexivity].
  rewrite Hsame. exact Hdef.
Qed.

Lemma recursive_macro_never_returns_witness :
  Compiler.__macros sample_recursive !! upper "m"
    = Some (Content [CallCommand "m"]) /\
  upper "m" = upper "m" /\
  Compiler.visit romaji 50 (CallCommand "m") sample_recursive
    = Compiler.OutOfFuel.
Proof.
  assert (Compiler.__macros sample_recursive !! upper "m"
          = Some (Content [CallCommand "m"])) as Hdef
    by (vm_compute; reflexivity).
  split; [exact Hdef|]. split; [reflexivity|].
  exact (recursive_macro_never_returns romaji "m" "m" [] sample_recursive
           Hdef eq_refl 50%nat).
Defined.

(** ** note_command: the elements it writes *)

Section extends_facts.

Local Open Scope nat_scope.

Lemma extends_refl s : extends s s.
Proof.
  intros r el H. exists []. rewrite app_nil_r. destruct el. exact H.
Qed.

Lemma extends_trans s1 s2 s3 : extends s1 s2 -> extends s2 s3 -> extends s1 s3.
Proof.
  intros H12 H23 r el H.
  destruct (H12 r el H) as (m1 & H2).
  destruct (H23 r _ H2) as (m2 & H3).
  exists (m1 ++ m2). rewrite H3. cbn. rewrite app_assoc. reflexivity.
Qed.

Lemma extends_app s new : extends s (s ++ new).
Proof.
  intros r el H. exists []. rewrite app_nil_r. destruct el.
  apply lookup_app_l_Some, H.
Qed.

Lemma extends_alter_append s p k : extends s (alter (ET.append k) p s).
Proof.
  intros r el H. destruct (decide (p = r)) as [->|Hne].
  - rewrite list_lookup_alter_eq, H. exists [k]. reflexivity.
  - rewrite list_lookup_alter_ne, H by exact Hne. exists [].
    rewrite app_nil_r. destruct el. reflexivity.
Qed.

Lemma extends_keeps_tags s s' : extends s s' -> keeps_tags s s'.
Proof.
  intros H r el Hr. destruct (H r el Hr) as (more & H').
  eexists. split; [exact H' | reflexivity].
Qed.

End extends_facts.

(** Name the elements allocated since [base], then forget the store. *)
Ltac pose_lookups n base new k :=
  lazymatch eval cbn in (new !! k) with
  | Some ?e =>
      let H := fresh "Hnew" in
      assert (H : (base ++ new) !! (n + k)%nat = Some e)
        by (rewrite (lookup_new n) by heap_side; reflexivity);
      pose_lookups n base new (S k)
  | None => idtac
  end.
Ltac name_store n :=
  lazymatch goal with
  | |- context [?base ++ ?new] =>
      let H0 := fresh "Hnew" in
      assert (H0 : (base ++ new) !! n = new !! 0%nat)
        by (apply (lookup_new0 n); heap_side);
      cbn [lookup list_lookup] in H0;
      pose_lookups n base new 0%nat;
      let S := fresh "store" in
      let HS := fresh "Hstore" in
      remember (base ++ new) as S eqn:HS; clear HS
  end.
Ltac read_named :=
  repeat (progress (unfold measure_note, note_pitch, note_lyric, note_breath,
                      measure_sound, measure_constants, has_child,
                      ET.find, ET.findtext;
                    repeat match goal with
                           | H : _ !! _ = Some _ |- _ => rewrite H
                           end;
                    cbn)).

Section note_written.

Import Compiler.
Variable convert : string -> string.

Lemma note_written children self l pitch part el_part :
  scan children
    (mkLocals false EmptyString EmptyString 0 (Pitch.mk "C" 0 (-1))
       (__length self) 0 false)
    = Return l ->
  (if negb (rest_ l) then resolve l self else Return (pitch_ l))
    = Return pitch ->
  getitem (__parts self) (__channel self) = Return (Some part) ->
  __elements self !! part = Some el_part ->
  (forall q, __previous_notations self = Some q ->
     (q < length (__elements self))%nat /\ q <> part) ->
  let s := __elements self in
  let n := length s in
  let s' := __elements (state_of (note_command convert children self)) in
  extends s s' /\
  measure_note n s' = Some (n + 12)%nat /\
  ET.findtext (n + 12)%nat "duration" s' = Some (str (2 * 2 ^ dot_ l - 1)) /\
  measure_sound n s' = Some [("tempo", str (__tempo self))] /\
  measure_constants n s' = Some ("1", "0", "G", "2") /\
  has_child (n + 12)%nat "rest" s' = rest_ l /\
  has_child (n + 12)%nat "pitch" s' = negb (rest_ l) /\
  has_child (n + 12)%nat "notations" s' = negb (rest_ l) /\
  note_pitch (n + 12)%nat s'
    = (if rest_ l then None
       else Some (Pitch._step pitch, str (Pitch._alter pitch),
                  str (Pitch._octave pitch))) /\
  note_lyric (n + 12)%nat s'
    = (if negb (rest_ l) && nonempty (text_ l)
       then Some (convert (text_ l)) else None) /\
  note_breath (n + 12)%nat s' = negb (rest_ l) && breath_ l.
Proof.
  intros Hscan Hpitch Hpart Hel Hq s n s'. subst s n s'.
  unfold note_command.
  change (Pitch.init 0) with (Return (Pitch.mk "C" 0 (-1))).
  cbn [mbind result_bind]. rewrite Hscan, Hpitch. cbv zeta.
  generalize (2 * 2 ^ dot_ l - 1) (length_ l * 2 ^ dot_ l).
  intros beat beat_type.
  assert (Hpn : (part < length (__elements self))%nat)
    by (eapply lookup_lt_Some, Hel).
  pose proof (length_alter (ET.append (length (__elements self) + 0)%nat)
                (__elements self) part) as Hn.
  destruct (rest_ l) eqn:Hrest; cbn [negb andb];
    cbn [__parts __channel __tempo __elements __previous_notations
         set_previous_text set_previous_pitch];
    rewrite Hpart; unfold emit_measure; rewrite SubElement_first;
    generalize (str beat) (str beat_type) (str (__tempo self));
    intros sb sbt st;
    remember (length (__elements self)) as n eqn:Hlen;
    remember (alter (ET.append (n + 0)%nat) part (__elements self))
      as base eqn:Hbase;
    repeat heap_step n.
  - cbn [state_of __elements set_elements set_previous_notations
         set_previous_pitch set_previous_text].
    split.
    { eapply extends_trans; [|apply extends_app].
      rewrite Hbase. apply extends_alter_append. }
    clear Hel. name_store n. repeat split; read_named; reflexivity.
  - unfold emit_pitched.
    generalize (Pitch._step pitch) (str (Pitch._alter pitch))
               (str (Pitch._octave pitch)) (convert (text_ l)).
    intros ss sa so lyr.
    cbn [__previous_notations set_previous_text set_previous_pitch].
    destruct (tie_test (text_ l) self) eqn:Htie.
    + destruct (tie_test_previous _ _ Htie) as [q Hprev]. rewrite Hprev.
      destruct (Hq q Hprev) as [Hqn Hqp].
      destruct (nonempty (text_ l)), (breath_ l); repeat heap_step n;
        heap_old n base' Hbase' Hn'; rewrite Hn in Hn'; repeat heap_step n.
      all: cbn [state_of __elements set_elements set_previous_notations
                set_previous_pitch set_previous_text].
      all: split;
        [eapply extends_trans; [|apply extends_app];
         rewrite Hbase', Hbase;
         eapply extends_trans; apply extends_alter_append|].
      all: clear Hel; name_store n; repeat split; read_named; reflexivity.
    + destruct (nonempty (text_ l)), (breath_ l); repeat heap_step n.
      all: cbn [state_of __elements set_elements set_previous_notations
                set_previous_pitch set_previous_text].
      all: split;
        [eapply extends_trans; [|apply extends_app];
         rewrite Hbase; apply extends_alter_append|].
      all: clear Hel; name_store n; repeat split; read_named; reflexivity.
Qed.

End note_written.

(** ** What a note command writes *)

Lemma set_value_canonical (v : Z) (q p : Pitch.t) :
  Pitch.set_value v q = Return p ->
  legal_step (Pitch._step p) /\ 0 <= Pitch._alter p <= 1 /\
  -1 <= Pitch._octave p <= 9.
Proof.
  intros H.
  destruct (tables_agree (v mod 12) q) as
    (step & alter & o & base & Hs & Ha & Hset & _ & _ & _ & Hrange).
  { apply Z.mod_pos_bound; lia. }
  unfold Pitch.set_value in H. rewrite Hs in H. cbn [mbind result_bind] in H.
  rewrite Hset in H. cbn [mbind result_bind] in H. rewrite Ha in H.
  cbn [mbind result_bind] in H. injection H as <-.
  cbn [Pitch.set_octave Pitch.set_alter Pitch._step Pitch._alter Pitch._octave].
  split; [|split; [|lia]].
  - unfold Pitch.set_step in Hset.
    destruct (bool_decide _) eqn:Hd; [|discriminate].
    injection Hset as Heq. apply bool_decide_eq_true_1 in Hd.
    unfold legal_step. rewrite <- Heq. exact Hd.
  - rewrite Z.mod_small by lia. destruct (alter <? 0) eqn:E; lia.
Qed.

Lemma resolve_canonical (l : Compiler.locals) (self : Compiler.t) (p : Pitch.t) :
  Compiler.resolve l self = Return p ->
  legal_step (Pitch._step p) /\ 0 <= Pitch._alter p <= 1 /\
  -1 <= Pitch._octave p <= 9.
Proof.
  unfold Compiler.resolve.
  destruct (if Compiler.nonempty (Compiler.step_ l) then _ else _) as [q|];
    [|discriminate].
  cbn [mbind result_bind]. unfold Pitch.add_value.
  destruct (Pitch.value q) as [v|]; [|discriminate].
  cbn [mbind result_bind]. apply set_value_canonical.
Qed.

Lemma scan_breath (children : list NoteChild) (l l' : Compiler.locals) :
  Compiler.scan children l = Return l' ->
  Compiler.breath_ l' = Compiler.breath_ l || has_breath children.
Proof.
  revert l. induction children as [|child children IH]; intros l H;
    cbn [Compiler.scan] in H.
  - injection H as <-. cbn. rewrite orb_false_r. reflexivity.
  - destruct (Compiler.scan_child child l) as [l1|] eqn:H1; [|discriminate].
    cbn [mbind result_bind] in H. rewrite (IH _ H).
    destruct l as [rest text step alter pitch len dot breath].
    destruct child; cbn [Compiler.scan_child] in H1;
      try (injection H1 as <-; cbn; rewrite ?orb_true_r, ?orb_false_r;
           reflexivity).
    + destruct (String.eqb s "-"); injection H1 as <-; reflexivity.
    + destruct (Pitch.set_value n pitch); [|discriminate].
      cbn [mbind result_bind] in H1. injection H1 as <-. reflexivity.
Qed.

Section written.

Import Compiler.
Variable convert : string -> string.

(** The facts of [note_effect] and [note_written] for a note command of
    the grammar in a state of a compilation. *)
Lemma note_summary fuel children self :
  wf self -> note_legal children ->
  exists self' part measure note p,
    visit convert (S fuel) (NoteCommand children) self = Done self' /\
    wf self' /\
    getitem (__parts self) (__channel self) = Return (Some part) /\
    last_measure self' = Some measure /\
    last_note self' = Some note /\
    __previous_pitch self' = Some p /\
    measure_count self' = S (measure_count self) /\
    extends (__elements self) (__elements self') /\
    ET.findtext note "duration" (__elements self')
      = Some (str (2 * 2 ^ dots children - 1)) /\
    measure_sound measure (__elements self')
      = Some [("tempo", str (__tempo self))] /\
    measure_constants measure (__elements self') = Some ("1", "0", "G", "2") /\
    has_child note "rest" (__elements self') = is_rest children /\
    has_child note "pitch" (__elements self') = negb (is_rest children) /\
    has_child note "notations" (__elements self') = negb (is_rest children) /\
    note_pitch note (__elements self')
      = (if is_rest children then None
         else Some (Pitch._step p, str (Pitch._alter p), str (Pitch._octave p))) /\
    note_lyric note (__elements self')
      = (if negb (is_rest children) && nonempty (lyric children EmptyString)
         then Some (convert (lyric children EmptyString)) else None) /\
    note_breath note (__elements self')
      = negb (is_rest children) && has_breath children /\
    (is_rest children = false ->
       legal_step (Pitch._step p) /\ 0 <= Pitch._alter p <= 1 /\
       -1 <= Pitch._octave p <= 9).
Proof.
  intros Hwf Hlegal.
  destruct (note_total children self Hwf Hlegal)
    as (l & pitch & part & el_part & Hscan & Hpitch & Hpart & Hel & Hq
        & Hrest & Htext & Hdots & _ & _).
  destruct (note_effect convert children self l pitch part el_part
              Hscan Hpitch Hpart Hel Hq)
    as (s' & Heq & _ & Hlast & _).
  pose proof (note_written convert children self l pitch part el_part
                Hscan Hpitch Hpart Hel Hq) as Hw.
  cbv zeta in Hw. rewrite Heq in Hw.
  cbn [state_of __elements set_elements set_previous_notations
       set_previous_pitch set_previous_text] in Hw.
  destruct Hw as (Hext & Hnote & Hdur & Hsound & Hconst & Hhr & Hhp & Hhn
                  & Hpitchw & Hlyric & Hbreath).
  pose proof (scan_breath _ _ _ Hscan) as Hb. cbn [breath_ orb] in Hb.
  rewrite Hrest, ?Htext, ?Hdots, ?Hb in *.
  eexists. exists part, (length (__elements self)),
    (length (__elements self) + 12)%nat, pitch.
  split; [rewrite visit_note; exact Heq|].
  split; [eapply wf_note; [exact Hwf | exact Heq]|].
  split; [exact Hpart|].
  unfold last_measure, last_note, measure_count.
  cbn [__parts __channel __elements __previous_pitch set_elements
       set_previous_notations set_previous_pitch set_previous_text].
  rewrite Hpart, (last_snoc_child _ _ _ _ Hlast), Hlast, Hel.
  cbn [mbind option_bind ET.append ET.children].
  unfold ET.append. cbn [ET.children]. rewrite length_app, Nat.add_1_r.
  repeat match goal with |- _ /\ _ => split end; try assumption;
    try reflexivity.
  intros Hnr. rewrite Hnr in Hpitch. cbn [negb] in Hpitch.
  eapply resolve_canonical, Hpitch.
Qed.

End written.

(** ** What a note command writes: by kind of note *)

Section notes.

Import Compiler.
Variable convert : string -> string.

(** A pitched note of the grammar, in a state of a compilation: the
    command returns, and the note element of the measure it appends has
    a [pitch] child whose step, alter and octave are the texts of the
    pitch kept as previous pitch: a legal step, an alter of 0 or 1 and
    an octave of [-1, 9]; it has no [rest] child. *)
Theorem note_writes_pitch fuel children self :
  wf self -> steps_legal children -> is_rest children = false ->
  exists self' note p,
    visit convert (S fuel) (NoteCommand children) self = Done self' /\
    last_note self' = Some note /\
    __previous_pitch self' = Some p /\
    note_pitch note (__elements self')
      = Some (Pitch._step p, str (Pitch._alter p), str (Pitch._octave p)) /\
    legal_step (Pitch._step p) /\
    0 <= Pitch._alter p <= 1 /\
    -1 <= Pitch._octave p <= 9 /\
    has_child note "rest" (__elements self') = false.
Proof.
  intros Hwf Hlegal Hrest.
  destruct (note_summary convert fuel children self Hwf (or_intror Hlegal))
    as (self' & part & measure & note & p & Hdone & _ & _ & _ & Hnote & Hp
        & _ & _ & _ & _ & _ & Hhr & _ & _ & Hpitch & _ & _ & Hcanon).
  rewrite Hrest in *. cbn [negb andb] in *.
  destruct (Hcanon eq_refl) as (H1 & H2 & H3).
  exists self', note, p. splits; first [assumption | lia].
Qed.

(** A pitched note of the grammar, in a state of a compilation: the
    note element has a [lyric/text] exactly when the command has a
    non-empty lyric, and it is the lyric converted by [okaka]; its
    notations have a breath mark exactly when the command has one. *)
Theorem note_writes_lyric_and_breath fuel children self :
  wf self -> steps_legal children -> is_rest children = false ->
  exists self' note,
    visit convert (S fuel) (NoteCommand children) self = Done self' /\
    last_note self' = Some note /\
    note_lyric note (__elements self')
      = (if nonempty (lyric children EmptyString)
         then Some (convert (lyric children EmptyString)) else None) /\
    note_breath note (__elements self') = has_breath children.
Proof.
  intros Hwf Hlegal Hrest.
  destruct (note_summary convert fuel children self Hwf (or_intror Hlegal))
    as (self' & part & measure & note & p & Hdone & _ & _ & _ & Hnote & _
        & _ & _ & _ & _ & _ & _ & _ & _ & _ & Hlyric & Hbreath & _).
  rewrite Hrest in *. cbn [negb andb] in *.
  exists self', note. splits; first [assumption | lia].
Qed.

(** A rest, in a state of a compilation: the command returns, and the
    note element of the measure it appends has a [rest] child and no
    pitch, notations, lyric or breath mark, whatever else the command
    carries. *)
Theorem rest_writes_rest fuel children self :
  wf self -> is_rest children = true ->
  exists self' note,
    visit convert (S fuel) (NoteCommand children) self = Done self' /\
    last_note self' = Some note /\
    has_child note "rest" (__elements self') = true /\
    has_child note "pitch" (__elements self') = false /\
    has_child note "notations" (__elements self') = false /\
    note_pitch note (__elements self') = None /\
    note_lyric note (__elements self') = None /\
    note_breath note (__elements self') = false.
Proof.
  intros Hwf Hrest.
  destruct (note_summary convert fuel children self Hwf (or_introl Hrest))
    as (self' & part & measure & note & p & Hdone & _ & _ & _ & Hnote & _
        & _ & _ & _ & _ & _ & Hhr & Hhp & Hhn & Hpitch & Hlyric & Hbreath & _).
  rewrite Hrest in *. cbn [negb andb] in *.
  exists self', note. splits; first [assumption | lia].
Qed.

(** Every note or rest of the grammar, in a state of a compilation:
    the measure it appends has divisions 1, key fifths 0 and a G clef
    on line 2 whatever the key of the channel, a [sound] element whose
    one attribute is the tempo of the channel, and a note whose
    duration is [2 * 2 ^ d - 1] for [d] dots. *)
Theorem note_writes_attributes fuel children self :
  wf self -> note_legal children ->
  exists self' measure note,
    visit convert (S fuel) (NoteCommand children) self = Done self' /\
    last_measure self' = Some measure /\
    last_note self' = Some note /\
    measure_constants measure (__elements self') = Some ("1", "0", "G", "2") /\
    measure_sound measure (__elements self')
      = Some [("tempo", str (__tempo self))] /\
    ET.findtext note "duration" (__elements self')
      = Some (str (2 * 2 ^ dots children - 1)).
Proof.
  intros Hwf Hlegal.
  destruct (note_summary convert fuel children self Hwf Hlegal)
    as (self' & part & measure & note & p & Hdone & _ & _ & Hm & Hnote & _
        & _ & _ & Hdur & Hsound & Hconst & _).
  exists self', measure, note. splits; first [assumption | lia].
Qed.

(** ** Documents only grow *)

Lemma note_raise_unchanged children self e self' :
  wf self -> note_command convert children self = Raised e self' ->
  self' = self.
Proof.
  intros Hwf H.
  destruct (scan children
              (mkLocals false EmptyString EmptyString 0 (Pitch.mk "C" 0 (-1))
                 (__length self) 0 false)) as [l|e1] eqn:Hscan.
  - destruct (if negb (rest_ l) then resolve l self else Return (pitch_ l))
      as [pitch|e2] eqn:Hpitch.
    + destruct Hwf as [Hparts [part Hpart] Hnot].
      destruct (wf_refs self part (Build_wf _ Hparts (ex_intro _ part Hpart) Hnot)
                  Hpart) as (el_part & Hel & Hq).
      destruct (note_effect convert children self l pitch part el_part
                  Hscan Hpitch Hpart Hel Hq) as (s' & Heq & _).
      rewrite Heq in H. discriminate.
    + unfold note_command in H.
      change (Pitch.init 0) with (Return (Pitch.mk "C" 0 (-1))) in H.
      cbn [mbind result_bind] in H. rewrite Hscan, Hpitch in H.
      injection H as _ <-. reflexivity.
  - unfold note_command in H.
    change (Pitch.init 0) with (Return (Pitch.mk "C" 0 (-1))) in H.
    cbn [mbind result_bind] in H. rewrite Hscan in H.
    injection H as _ <-. reflexivity.
Qed.

Lemma note_done_extends children self self' :
  wf self -> note_command convert children self = Done self' ->
  extends (__elements self) (__elements self').
Proof.
  intros Hwf H.
  destruct (note_done_inv _ _ _ _ H) as (l & pitch & part & Hscan & Hpitch & Hpart).
  destruct (wf_refs self part Hwf Hpart) as (el_part & Hel & Hq).
  pose proof (note_written convert children self l pitch part el_part
                Hscan Hpitch Hpart Hel Hq) as Hw.
  cbv zeta in Hw. rewrite H in Hw. exact (proj1 Hw).
Qed.

(** Documents only grow: whether the interpretation of a tree returns
    or raises, every element of the store is still there with its tag,
    attributes and text, and its children are the former ones followed
    by new ones. *)
Theorem documents_only_grow fuel tree self self' e :
  wf self ->
  visit convert fuel tree self = Done self' \/
  visit convert fuel tree self = Raised e self' ->
  extends (__elements self) (__elements self').
Proof.
  intros Hwf.
  set (D := fun a b : t => wf a -> wf b /\ extends (__elements a) (__elements b)).
  set (E := fun a b : t => wf a -> extends (__elements a) (__elements b)).
  assert (forall a b : t,
            __parts b = __parts a -> __channel b = __channel a ->
            __previous_notations b = __previous_notations a ->
            __elements b = __elements a ->
            wf a -> wf b /\ extends (__elements a) (__elements b)) as Hsame.
  { intros a b H1 H2 H3 H4 Ha. split; [eapply wf_same; eassumption|].
    rewrite H4. apply extends_refl. }
  assert (ends D E self (visit convert fuel tree self)) as H.
  { apply visit_ends; subst D E; cbn beta;
      try (intros; apply Hsame; [reflexivity..|assumption]).
    - intros a b c Hab Hbc Ha. destruct (Hab Ha) as [Hb Hext].
      destruct (Hbc Hb) as [Hc Hext']. split; [exact Hc|].
      eapply extends_trans; eassumption.
    - intros a b c Hab Hbc Ha. destruct (Hab Ha) as [Hb Hext].
      eapply extends_trans; [exact Hext | exact (Hbc Hb)].
    - intros children a. destruct (note_command convert children a) eqn:Hn;
        cbn [ends]; [| |exact I].
      + intros Ha. split; [eapply wf_note; eassumption|].
        eapply note_done_extends; eassumption.
      + intros Ha. rewrite (note_raise_unchanged _ _ _ _ Ha Hn).
        apply extends_refl.
    - intros channel a Ha. apply extends_refl. }
  intros [Hd|Hr]; [rewrite Hd in H | rewrite Hr in H]; cbn [ends] in H.
  - exact (proj2 (H Hwf)).
  - exact (H Hwf).
Qed.

(** ** One measure for each note *)

Lemma measure_count_octave v self :
  measure_count (set_octave v self) = measure_count self.
Proof. reflexivity. Qed.

Lemma notes_measures fuel notes self :
  Forall note_legal notes -> wf self ->
  exists self',
    default (visit convert (S fuel)) (map NoteCommand notes) self = Done self' /\
    wf self' /\
    measure_count self' = (measure_count self + length notes)%nat.
Proof.
  intros Hlegal. revert self.
  induction Hlegal as [|children notes Hc _ IH]; intros self Hwf.
  - exists self. cbn. rewrite Nat.add_0_r. auto.
  - destruct (note_summary convert fuel children self Hwf Hc)
      as (self1 & part & measure & note & p & Hdone & Hwf1 & _ & _ & _ & _
          & Hcount & _).
    destruct (IH self1 Hwf1) as (self' & Hrest & Hwf' & Hcount').
    exists self'. cbn [map default]. rewrite Hdone.
    split; [exact Hrest|]. split; [exact Hwf'|].
    rewrite Hcount', Hcount. cbn [length]. lia.
Qed.

(** A loop of [count] rounds over a body of notes and rests of the
    grammar returns and appends [count] times the number of notes
    measures to the part of the active channel. *)
Theorem loop_measures fuel notes count self :
  Forall note_legal notes -> wf self ->
  exists self',
    visit convert (S (S (S fuel)))
      (LoopCommand (Content (map NoteCommand notes)) count) self = Done self' /\
    measure_count self' = (measure_count self + count * length notes)%nat.
Proof.
  intros Hlegal. rewrite visit_loop. revert self.
  induction count as [|count IH]; intros self Hwf; cbn [loop].
  - exists self. split; [reflexivity|lia].
  - rewrite visit_content.
    destruct (notes_measures fuel notes self Hlegal Hwf)
      as (self1 & Hbody & Hwf1 & Hcount1).
    rewrite Hbody.
    assert (wf (set_octave (__octave self) self1)) as Hwf2
      by (eapply wf_same; [..|exact Hwf1]; reflexivity).
    destruct (IH _ Hwf2) as (self' & Hloop & Hcount').
    exists self'. split; [exact Hloop|].
    rewrite Hcount', measure_count_octave, Hcount1. lia.
Qed.

End notes.

(** A pitched note with a lyric and a breath mark. *)
Lemma steps_legal_sample : steps_legal [Text "ka"; Step "C"; Breath].
Proof.
  apply steps_legal_other; [discriminate|].
  apply steps_legal_C, steps_legal_other; [discriminate | apply steps_legal_nil].
Qed.

Lemma note_writes_pitch_witness :
  wf start /\ steps_legal [Text "ka"; Step "C"; Breath] /\
  is_rest [Text "ka"; Step "C"; Breath] = false /\
  exists self' note p,
    Compiler.visit romaji 1 (NoteCommand [Text "ka"; Step "C"; Breath]) start
      = Compiler.Done self' /\
    last_note self' = Some note /\
    note_pitch note (Compiler.__elements self')
      = Some (Pitch._step p, str (Pitch._alter p), str (Pitch._octave p)) /\
    0 <= Pitch._alter p <= 1.
Proof.
  split; [exact wf_start|]. split; [exact steps_legal_sample|].
  split; [reflexivity|].
  destruct (note_writes_pitch romaji 0 _ start wf_start steps_legal_sample
              eq_refl)
    as (self' & note & p & Hdone & Hnote & _ & Hpitch & _ & Ha & _).
  exists self', note, p. splits; first [assumption | lia].
Defined.

Lemma note_writes_lyric_and_breath_witness :
  wf start /\ steps_legal [Text "ka"; Step "C"; Breath] /\
  is_rest [Text "ka"; Step "C"; Breath] = false /\
  exists self' note,
    Compiler.visit romaji 1 (NoteCommand [Text "ka"; Step "C"; Breath]) start
      = Compiler.Done self' /\
    last_note self' = Some note /\
    note_lyric note (Compiler.__elements self') = Some "ka" /\
    note_breath note (Compiler.__elements self') = true.
Proof.
  split; [exact wf_start|]. split; [exact steps_legal_sample|].
  split; [reflexivity|].
  exact (note_writes_lyric_and_breath romaji 0 _ start wf_start
           steps_legal_sample eq_refl).
Defined.

Lemma rest_writes_rest_witness :
  wf start /\ is_rest [Rest; Breath] = true /\
  exists self' note,
    Compiler.visit romaji 1 (NoteCommand [Rest; Breath]) start
      = Compiler.Done self' /\
    last_note self' = Some note /\
    has_child note "rest" (Compiler.__elements self') = true /\
    note_breath note (Compiler.__elements self') = false.
Proof.
  split; [exact wf_start|]. split; [reflexivity|].
  destruct (rest_writes_rest romaji 0 [Rest; Breath] start wf_start eq_refl)
    as (self' & note & Hdone & Hnote & Hr & _ & _ & _ & _ & Hb).
  exists self', note. splits; assumption.
Defined.

Lemma note_writes_attributes_witness :
  wf start /\ note_legal [Rest; Dot] /\
  exists self' measure note,
    Compiler.visit romaji 1 (NoteCommand [Rest; Dot]) start
      = Compiler.Done self' /\
    last_measure self' = Some measure /\
    last_note self' = Some note /\
    measure_constants measure (Compiler.__elements self')
      = Some ("1", "0", "G", "2") /\
    measure_sound measure (Compiler.__elements self')
      = Some [("tempo", "120")] /\
    ET.findtext note "duration" (Compiler.__elements self') = Some "3".
Proof.
  split; [exact wf_start|]. split; [left; reflexivity|].
  exact (note_writes_attributes romaji 0 [Rest; Dot] start wf_start
           (or_introl eq_refl)).
Defined.

Lemma documents_only_grow_witness :
  wf start /\
  (Compiler.visit romaji 1 (NoteCommand [Text "ka"; Step "C"]) start
     = Compiler.Done after_ka \/
   Compiler.visit romaji 1 (NoteCommand [Text "ka"; Step "C"]) start
     = Compiler.Raised TypeError after_ka) /\
  extends (Compiler.__elements start) (Compiler.__elements after_ka).
Proof.
  split; [exact wf_start|]. split; [left; exact after_ka_done|].
  exact (documents_only_grow romaji 1 _ start after_ka TypeError wf_start
           (or_introl after_ka_done)).
Defined.

Lemma loop_measures_witness :
  Forall note_legal [[Step "C"]; [Rest]] /\ wf start /\
  exists self',
    Compiler.visit romaji 3
      (LoopCommand (Content (map NoteCommand [[Step "C"]; [Rest]])) 3) start
      = Compiler.Done self' /\
    measure_count self' = 6%nat.
Proof.
  assert (Forall note_legal [[Step "C"]; [Rest]]) as Hlegal.
  { constructor; [right; apply steps_legal_C, steps_legal_nil|].
    constructor; [left; reflexivity | constructor]. }
  split; [exact Hlegal|]. split; [exact wf_start|].
  exact (loop_measures romaji 0 _ 3 start Hlegal wf_start).
Defined.

(** ** run *)

(** When [run] returns, it returns sixteen entries: the document of
    channel 0, serialised from the store the compilation left, and
    fifteen [None]. *)
Theorem run_scores (lark_parse : string -> lark_result)
    (tostring : ET.store -> ET.ref -> string -> bool -> option string)
    (convert : string -> string) (fuel : nat) (program encoding : string)
    (minified : bool) (scores : list (option string)) :
  run lark_parse tostring convert fuel program encoding minified
    = Scores scores ->
  exists tree self document,
    lark_parse program = Parsed tree /\
    Compiler.compile convert fuel tree = Compiler.Done self /\
    tostring (Compiler.__elements self) 0%nat encoding (negb minified)
      = Some document /\
    scores = Some document :: replicate 15 None.
Proof.
  unfold run, parse. destruct (lark_parse program) as [tree| |];
    [|discriminate..].
  destruct (Compiler.compile convert fuel tree) as [self| |] eqn:Hc;
    try discriminate.
  destruct (compile_same_channel _ _ _ _ Hc) as (Hs & _).
  rewrite Hs. change (Compiler.__scores start)
    with (Some 0%nat :: replicate 15 (@None ET.ref)).
  cbn [documents replicate mbind option_bind].
  destruct (tostring _ _ _ _) as [document|] eqn:Hdoc;
    cbn [mbind option_bind]; [|discriminate].
  intros [= <-]. exists tree, self, document. repeat split; assumption.
Qed.

Lemma run_scores_witness :
  run sample_parse sample_tostring romaji 3 "C" "utf-8" false
    = Scores (Some "score-partwise" :: replicate 15 None) /\
  exists tree self document,
    sample_parse "C" = Parsed tree /\
    Compiler.compile romaji 3 tree = Compiler.Done self /\
    sample_tostring (Compiler.__elements self) 0%nat "utf-8" (negb false)
      = Some document /\
    Some "score-partwise" :: replicate 15 None
    = Some document :: replicate 15 (@None string).
Proof.
  assert (run sample_parse sample_tostring romaji 3 "C" "utf-8" false
          = Scores (Some "score-partwise" :: replicate 15 None)) as Hrun
    by (vm_compute; reflexivity).
  split; [exact Hrun|].
  exact (run_scores sample_parse sample_tostring romaji 3 "C" "utf-8" false
           _ Hrun).
Defined.

(** ** Notes after a rest, and notes given by number *)

Lemma scan_modifiers (modifiers : list NoteChild) (l : Compiler.locals) :
  Forall modifier modifiers ->
  exists l',
    Compiler.scan modifiers l = Return l' /\
    Compiler.rest_ l' = Compiler.rest_ l /\
    Compiler.step_ l' = Compiler.step_ l /\
    Compiler.pitch_ l' = Compiler.pitch_ l.
Proof.
  intros H. revert l. induction H as [|c modifiers Hc _ IH]; intros l.
  - exists l. repeat split.
  - destruct l as [rest text step alter pitch len dot breath].
    destruct c; try contradiction; cbn [Compiler.scan Compiler.scan_child
                                        mbind result_bind];
      match goal with
      | |- context [Compiler.scan modifiers ?L] =>
          destruct (IH L) as (l' & Hscan & Hr & Hs & Hp)
      end; exists l'; auto.
Qed.

Lemma modifiers_legal (v : Z) (modifiers : list NoteChild) :
  Forall modifier modifiers ->
  steps_legal (PitchNumber v :: modifiers) /\
  is_rest (PitchNumber v :: modifiers) = false.
Proof.
  intros H. split.
  - apply steps_legal_other; [discriminate|].
    induction H as [|c modifiers Hc _ IH]; [apply steps_legal_nil|].
    apply steps_legal_other; [|exact IH]. destruct c; try contradiction;
      discriminate.
  - cbn [is_rest existsb orb].
    induction H as [|c modifiers Hc _ IH]; [reflexivity|].
    destruct c; try contradiction; exact IH.
Qed.

Section after_rest.

Import Compiler.
Variable convert : string -> string.

(** A rest breaks the chain of ties: the pitched note after a rest is
    not tied, whatever the lyrics, and writing it changes no earlier
    element but the part that receives its measure. *)
Theorem rest_breaks_tie fuel silence children self :
  wf self -> is_rest silence = true ->
  steps_legal children -> is_rest children = false ->
  exists self1 self2 part notations,
    visit convert (S fuel) (NoteCommand silence) self = Done self1 /\
    visit convert (S fuel) (NoteCommand children) self1 = Done self2 /\
    getitem (__parts self1) (__channel self1) = Return (Some part) /\
    __previous_notations self2 = Some notations /\
    has_tie notations "stop" (__elements self2) = false /\
    forall r, r <> part -> (r < length (__elements self1))%nat ->
      __elements self2 !! r = __elements self1 !! r.
Proof.
  intros Hwf Hsilence Hlegal Hnorest.
  destruct (note_total silence self Hwf (or_introl Hsilence))
    as (l & pitch & part & el_part & Hscan & Hpitch & Hpart & Hel & Hq
        & Hr & _).
  rewrite Hsilence in Hr.
  destruct (note_effect convert silence self l pitch part el_part
              Hscan Hpitch Hpart Hel Hq) as (s1 & Heq & _).
  rewrite Hr in Heq.
  match type of Heq with _ = Done ?S => set (self1 := S) in * end.
  assert (wf self1) as Hwf1 by (eapply wf_note; [exact Hwf | exact Heq]).
  destruct (note_total children self1 Hwf1 (or_intror Hlegal))
    as (l2 & pitch2 & part2 & el_part2 & Hscan2 & Hpitch2 & Hpart2 & Hel2
        & Hq2 & Hr2 & _).
  rewrite Hnorest in Hr2.
  destruct (note_effect convert children self1 l2 pitch2 part2 el_part2
              Hscan2 Hpitch2 Hpart2 Hel2 Hq2)
    as (s2 & Heq2 & _ & _ & _ & Hnot & _ & Hsame).
  rewrite Hr2 in Heq2.
  assert (tie_test (text_ l2) self1 = false) as Htie by reflexivity.
  destruct (Hnot Hr2) as (_ & _ & Hstop). rewrite Htie in Hstop.
  eexists self1, _, part2, _.
  split; [rewrite visit_note; exact Heq|].
  split; [rewrite visit_note; exact Heq2|].
  split; [exact Hpart2|].
  cbn [__previous_notations __elements set_previous_text set_previous_pitch
       set_previous_notations set_elements].
  split; [reflexivity|]. split; [exact Hstop|].
  exact (Hsame (or_intror Htie)).
Qed.

(** A note given by its MIDI number [v] of [0, 127] is transposed by
    the key of the channel: the pitch that is written, and kept as
    previous pitch, reads [v + key] when that lies in [0, 127], its
    pitch class in octave -1 below that and in octave 9, cut at 127,
    above. *)
Theorem pitch_number_transposed fuel v modifiers self :
  wf self -> 0 <= v <= 127 -> Forall modifier modifiers ->
  exists self' p,
    visit convert (S fuel) (NoteCommand (PitchNumber v :: modifiers)) self
      = Done self' /\
    __previous_pitch self' = Some p /\
    Pitch.value p
    = Return (if v + __key self <? 0 then (v + __key self) mod 12
              else if v + __key self <=? 127 then v + __key self
              else Z.min (120 + (v + __key self) mod 12) 127).
Proof.
  intros Hwf Hv Hmod.
  destruct (modifiers_legal v modifiers Hmod) as [Hlegal Hnorest].
  destruct (note_total (PitchNumber v :: modifiers) self Hwf
              (or_intror Hlegal))
    as (l & pitch & part & el_part & Hscan & Hpitch & Hpart & Hel & Hq
        & Hr & _).
  destruct (note_effect convert (PitchNumber v :: modifiers) self l pitch
              part el_part Hscan Hpitch Hpart Hel Hq) as (s' & Heq & _).
  rewrite Hnorest in Hr. rewrite Hr in Heq, Hpitch. cbn [negb] in Hpitch.
  eexists. exists pitch.
  split; [rewrite visit_note; exact Heq|]. split; [reflexivity|].
  cbn [scan scan_child] in Hscan.
  pose proof (set_value_then_value v (Pitch.mk "C" 0 (-1))) as Hread.
  destruct (Pitch.set_value v (Pitch.mk "C" 0 (-1))) as [q|]; [|discriminate].
  cbn [mbind result_bind] in Hscan, Hread.
  match type of Hscan with
  | scan modifiers ?L = _ =>
      destruct (scan_modifiers modifiers L Hmod) as (l' & Hl' & _ & Hs & Hp)
  end.
  rewrite Hl' in Hscan. injection Hscan as <-.
  unfold resolve in Hpitch. rewrite Hs, Hp in Hpitch.
  cbn [rest_ orb negb step_ pitch_ nonempty mbind result_bind] in Hpitch.
  assert (Pitch.value q = Return v) as Hq0.
  { rewrite Hread. f_equal.
    destruct (Z.ltb_spec v 0); [lia|]. destruct (Z.leb_spec v 127); lia. }
  pose proof (set_value_then_value (v + __key self) q) as Hadd.
  unfold Pitch.add_value in Hpitch. rewrite Hq0 in Hpitch.
  cbn [mbind result_bind] in Hpitch. rewrite Hpitch in Hadd. exact Hadd.
Qed.

End after_rest.

Lemma rest_breaks_tie_witness :
  wf start /\ is_rest [Rest] = true /\
  steps_legal [Text "ka"; Step "C"; Breath] /\
  is_rest [Text "ka"; Step "C"; Breath] = false /\
  exists self1 self2 notations,
    Compiler.visit romaji 1 (NoteCommand [Rest]) start = Compiler.Done self1 /\
    Compiler.visit romaji 1 (NoteCommand [Text "ka"; Step "C"; Breath]) self1
      = Compiler.Done self2 /\
    Compiler.__previous_notations self2 = Some notations /\
    has_tie notations "stop" (Compiler.__elements self2) = false.
Proof.
  split; [exact wf_start|]. split; [reflexivity|].
  split; [exact steps_legal_sample|]. split; [reflexivity|].
  destruct (rest_breaks_tie romaji 0 [Rest] _ start wf_start eq_refl
              steps_legal_sample eq_refl)
    as (self1 & self2 & part & notations & H1 & H2 & _ & H3 & H4 & _).
  exists self1, self2, notations. splits; assumption.
Defined.

Lemma pitch_number_transposed_witness :
  wf (Compiler.set_key (-2) start) /\ 0 <= 60 <= 127 /\
  Forall modifier [Length 8; Dot] /\
  exists self' p,
    Compiler.visit romaji 1 (NoteCommand [PitchNumber 60; Length 8; Dot])
      (Compiler.set_key (-2) start) = Compiler.Done self' /\
    Compiler.__previous_pitch self' = Some p /\
    Pitch.value p = Return 58.
Proof.
  assert (wf (Compiler.set_key (-2) start)) as Hwf
    by (eapply wf_same; [..|exact wf_start]; reflexivity).
  assert (Forall modifier [Length 8; Dot]) as Hmod
    by (constructor; [exact I|]; constructor; [exact I | constructor]).
  split; [exact Hwf|]. split; [lia|]. split; [exact Hmod|].
  exact (pitch_number_transposed romaji 0 60 _ _ Hwf ltac:(lia) Hmod).
Defined.
